(** * pubsub: the simple hub and the structured hub

    A shallow embedding of [simplehub] (registry, matching, fan-out,
    completion tracking) and of [structuredHub] (canonicalisation of the
    payload, handler shape validation, deserialisation), with the
    properties of the hub's specification stated over it.

    Conventions.
    - Go's [int] is taken at 64 bits, as a [Z] wrapped by [wrap].
    - A Go function returning [(T, error)] returns a [result T]:
      [Ok t] is [(t, nil)], [Err e] is [(nil, e)], and [Panic m] is a
      run-time panic (the call does not return).
    - Maps are reference values: a [map[string]interface{}] is [None]
      (the nil map) or [Some l] with its entries in the heap at [l].
    - [regexp], [encoding/json] and [sync] are libraries outside the
      repository: the first two are interfaces ([Regexp], [Json]), with
      one small instance of each to run the definitions on inputs.
    - Package [reflect] is taken on a fragment of Go's types, with their
      kinds, names, identity and assignability, and [Value.Call] with
      the panics it has on that fragment. *)

From stdpp Require Import base numbers list strings gmap fin_maps sorting.
From Stdlib Require Import ZArith Lia Sorted Permutation Ascii.

Local Open Scope Z_scope.
Set Warnings "-register-all".

(** ** Errors (github.com/juju/errors) *)

Inductive error : Type :=
| Errorf (format : string)          (* errors.Errorf; the formatted arguments are not tracked *)
| NotValidf (format : string)       (* errors.NotValidf *)
| Annotate (cause : error) (msg : string)
| Trace (cause : error)
| External (pkg msg : string).      (* an error made by regexp or encoding/json *)

(** errors.Cause: the error under the annotations and traces. *)
Fixpoint Cause (e : error) : error :=
  match e with
  | Annotate c _ => Cause c
  | Trace c => Cause c
  | _ => e
  end.

(** errors.IsNotValid *)
Definition IsNotValid (e : error) : bool :=
  match Cause e with
  | NotValidf _ => true
  | _ => false
  end.

Inductive result (A : Type) : Type :=
| Ok (a : A)
| Err (e : error)
| Panic (msg : string).
Arguments Ok {A} a.
Arguments Err {A} e.
Arguments Panic {A} msg.

(** ** Reflected types and dynamic values *)

Module reflect.

Inductive Kind : Type :=
| Bool | Int | Float64 | String | Chan | Map | Interface | Struct | Func.

(** A fragment of Go's types, enough for the payloads and handlers the
    hub tells apart.  [TString] is the predeclared [string] and
    [TDefString n] a defined type with that underlying type, as
    [type Topic string].  [TMap ""] is the type literal
    [map[string]interface{}]; [TMap n] with a name is a defined type with
    that underlying type.  An interface type has its name, empty for a
    literal, and the signatures of its methods, in the order of their
    names: [TInterface "" []] is [interface{}] and [errorType] below the
    predeclared [error].  A struct type has its name, empty for a
    literal, and its fields.  A name stands for one declaration, and the
    defined types that are no interfaces are declared without
    methods. *)
Inductive Type_ : Type :=
| TBool | TInt | TFloat64 | TString | TChan
| TDefString (name : string)
| TMap (name : string)
| TInterface (name : string) (methods : list string)
| TStruct (name : string) (fields : list (string * Type_))
| TFunc (ins outs : list Type_).

Definition kind (t : Type_) : Kind :=
  match t with
  | TBool => Bool | TInt => Int | TFloat64 => Float64 | TString => String
  | TChan => Chan
  | TDefString _ => String
  | TMap _ => Map
  | TInterface _ _ => Interface
  | TStruct _ _ => Struct
  | TFunc _ _ => Func
  end.

Definition Name (t : Type_) : string :=
  match t with
  | TBool => "bool" | TInt => "int" | TFloat64 => "float64"
  | TString => "string"
  | TChan => ""
  | TDefString n => n
  | TMap n => n
  | TInterface n _ => n
  | TStruct n _ => n
  | TFunc _ _ => ""
  end.

Definition NumIn (t : Type_) : nat :=
  match t with TFunc ins _ => length ins | _ => 0%nat end.

Definition NumOut (t : Type_) : nat :=
  match t with TFunc _ outs => length outs | _ => 0%nat end.

(** [t.In(i)]; the callers below index inside [NumIn]. *)
Definition In_ (t : Type_) (i : nat) : Type_ :=
  match t with
  | TFunc ins _ => nth i ins (TInterface "" [])
  | _ => TInterface "" []
  end.

(** [reflect.TypeOf(map[string]interface{}{})] *)
Definition mapType : Type_ := TMap "".

(** [t == mapType] on reflected types. *)
Definition is_mapType (t : Type_) : bool :=
  match t with
  | TMap n => bool_decide (n = "")
  | _ => false
  end.

(** [t.AssignableTo(mapType)]: identical types, or an identical
    underlying type when one of the two is not a defined type; the
    map literal is not, so every [TMap n] is assignable to it. *)
Definition AssignableTo_mapType (t : Type_) : bool :=
  match t with
  | TMap _ => true
  | _ => false
  end.

(** The predeclared [error]: [interface { Error() string }]. *)
Definition errorType : Type_ := TInterface "error" ["Error() string"].

(** Type identity. *)
Fixpoint identical (a b : Type_) : bool :=
  match a, b with
  | TBool, TBool | TInt, TInt | TFloat64, TFloat64 | TString, TString
  | TChan, TChan => true
  | TDefString n, TDefString m => bool_decide (n = m)
  | TMap n, TMap m => bool_decide (n = m)
  | TInterface n ms, TInterface m ns => bool_decide (n = m) && bool_decide (ms = ns)
  | TStruct n fs, TStruct m gs =>
      bool_decide (n = m) &&
      (fix fields (fs gs : list (string * Type_)) : bool :=
         match fs, gs with
         | [], [] => true
         | f :: fs', g :: gs' =>
             bool_decide (fst f = fst g) && identical (snd f) (snd g) && fields fs' gs'
         | _, _ => false
         end) fs gs
  | TFunc is_ os, TFunc is' os' =>
      let all :=
        fix all (ts us : list Type_) : bool :=
          match ts, us with
          | [], [] => true
          | t :: ts', u :: us' => identical t u && all ts' us'
          | _, _ => false
          end in
      all is_ is' && all os os'
  | _, _ => false
  end.

(** The underlying type. *)
Definition underlying (t : Type_) : Type_ :=
  match t with
  | TDefString _ => TString
  | TMap _ => TMap ""
  | TInterface _ ms => TInterface "" ms
  | TStruct _ fs => TStruct "" fs
  | _ => t
  end.

(** Whether the type has a name: the predeclared and the defined types
    have one, the type literals have none. *)
Definition hasName (t : Type_) : bool :=
  match t with
  | TBool | TInt | TFloat64 | TString | TDefString _ => true
  | TChan | TFunc _ _ => false
  | TMap n | TInterface n _ | TStruct n _ => negb (bool_decide (n = ""))
  end.

(** The method set. *)
Definition methods (t : Type_) : list string :=
  match t with
  | TInterface _ ms => ms
  | _ => []
  end.

(** [V.Implements(T)]: [T] is an interface type and every method of [T]
    is a method of [V]. *)
Definition implements (T V : Type_) : bool :=
  match T with
  | TInterface _ ms => forallb (fun m => bool_decide (m ∈ methods V)) ms
  | _ => false
  end.

(** [V.AssignableTo(T)]: the types are identical; or their underlying
    types are and one of the two has no name; or [T] is an interface
    that [V] implements. *)
Definition AssignableTo (V T : Type_) : bool :=
  identical V T
  || (negb (hasName T && hasName V) && identical (underlying V) (underlying T))
  || implements T V.

End reflect.

Definition loc : Type := positive.

(** The values of these types, as an [interface{}] holds them.  A map is
    a reference or nil; a function value is a closure, known by a
    number, or nil.  A value of a defined string type is written as the
    string it holds. *)
Inductive value : Type :=
| VNil                                      (* the nil interface value *)
| VBool (b : bool)
| VInt (n : Z)
| VFloat64 (n : Z)                          (* a float64 holding the integer [n] *)
| VString (s : string)
| VChan (c : option nat)                   (* [None]: the nil channel *)
| VMap (name : string) (ref : option loc)   (* dynamic type [TMap name] *)
| VStruct (name : string) (fields : list (string * reflect.Type_)) (vals : list value)
| VFunc (ins outs : list reflect.Type_) (fid : option nat). (* [None]: the nil function *)

(** [reflect.TypeOf]: [None] is the nil [reflect.Type] that
    [reflect.TypeOf(nil)] returns. *)
Definition TypeOf (v : value) : option reflect.Type_ :=
  match v with
  | VNil => None
  | VBool _ => Some reflect.TBool
  | VInt _ => Some reflect.TInt
  | VFloat64 _ => Some reflect.TFloat64
  | VString _ => Some reflect.TString
  | VChan _ => Some reflect.TChan
  | VMap n _ => Some (reflect.TMap n)
  | VStruct n fs _ => Some (reflect.TStruct n fs)
  | VFunc ins outs _ => Some (reflect.TFunc ins outs)
  end.

(** [reflect.Indirect(reflect.New(rt))]: the zero value of [rt]. *)
Fixpoint zero (t : reflect.Type_) : value :=
  match t with
  | reflect.TBool => VBool false
  | reflect.TInt => VInt 0
  | reflect.TFloat64 => VFloat64 0
  | reflect.TString => VString ""
  | reflect.TChan => VChan None
  | reflect.TDefString _ => VString ""
  | reflect.TMap n => VMap n None
  | reflect.TInterface _ _ => VNil
  | reflect.TStruct n fs => VStruct n fs (map (fun f => zero (snd f)) fs)
  | reflect.TFunc ins outs => VFunc ins outs None
  end.

(** ** The heap of map objects *)

Abbreviation entries := (gmap string value).
Abbreviation heap := (gmap loc (gmap string value)).

(** The entries of a map value; a nil map reads as the empty map. *)
Definition map_read (σ : heap) (r : option loc) : entries :=
  match r with
  | None => ∅
  | Some l => default ∅ (σ !! l)
  end.

(** [m[k] = v] *)
Definition map_assign (σ : heap) (r : option loc) (k : string) (v : value)
  : result heap :=
  match r with
  | None => Panic "assignment to entry in nil map"
  | Some l => Ok (<[l := <[k := v]> (map_read σ r)]> σ)
  end.

(** ** Go's int *)

Definition int_min : Z := - 2 ^ 63.
Definition int_max : Z := 2 ^ 63 - 1.
Definition wrap (z : Z) : Z := (z + 2 ^ 63) mod 2 ^ 64 - 2 ^ 63.

(** ** regexp *)

(** The part of package regexp the hub uses: compiling a pattern and
    [Regexp.MatchString], a function of the pattern and the string. *)
Class Regexp : Type := {
  regexp : Type;
  Compile : string → error + regexp;
  MatchString : regexp → string → bool
}.

(** ** The simple hub *)

(** The [handler] of a subscriber is called as [s.handler(topic, data)]:
    it is the function the caller gave to the simple hub, or the closure
    [deserialize] that [structuredHub.Subscribe] builds around the
    caller's function [f] and its data type [rt]. *)
Inductive handlerfn : Type :=
| Plain (f : value)
| Deserialize (rt : reflect.Type_) (f : value).

(** A call of a caller's function by the structured hub, as
    [f.Call(args)] makes it: with the topic, the data and the error
    slot, which holds nil or an error. *)
Inductive call : Type :=
| CallStructured (f : value) (t : string) (data : value) (err : option error).

Section simplehub.
Context `{Regexp}.

Record subscriber : Type := mkSubscriber {
  id : Z;
  topic : regexp;
  handler : handlerfn
}.

Record simplehub : Type := mkHub {
  subscribers : list subscriber;
  idx : Z
}.

(** [NewSimpleHub]: no subscribers, [idx] at its zero value. *)
Definition NewSimpleHub : simplehub := {| subscribers := []; idx := 0 |}.

(** The token Subscribe returns; its [hub] field is the hub the token
    is used on. *)
Record handle : Type := mkHandle { handle_id : Z }.

(** [dupeSubscribers]: a copy of the registry (Publish does not call
    it; it ranges over [h.subscribers] under the mutex). *)
Definition dupeSubscribers (h : simplehub) : list subscriber := subscribers h.

Definition matchTopic (s : subscriber) (t : string) : bool :=
  MatchString (topic s) t.

(** Whether a handler can be called as [func(string, interface{})]. *)
Definition callable (hd : handlerfn) : bool :=
  match hd with
  | Plain (VFunc [reflect.TString; reflect.TInterface EmptyString []] [] _) => true
  | Plain _ => false
  | Deserialize _ _ => true
  end.

(** Modelled from the spec: [newSubscriber], declared with [subscriber]
    in a file that is not among the sources.  The spec of Subscribe:
    the topic pattern must compile as a valid pattern, and the handler
    must be callable with the hub's notification signature; it fails
    otherwise.  The id is left at zero for Subscribe to set. *)
Definition newSubscriber (t : string) (hd : handlerfn) : error + subscriber :=
  match Compile t with
  | inl e => inl e
  | inr re =>
      if callable hd then inr {| id := 0; topic := re; handler := hd |}
      else inl (NotValidf "handler")
  end.

Definition Subscribe (h : simplehub) (t : string) (hd : handlerfn)
  : result handle * simplehub :=
  match newSubscriber t hd with
  | inl err => (Err (Trace err), h)
  | inr sub =>
      let sub := {| id := idx h; topic := topic sub; handler := handler sub |} in
      (Ok {| handle_id := id sub |},
       {| subscribers := subscribers h ++ [sub]; idx := wrap (idx h + 1) |})
  end.

(** The range loop of [unsubscribe]: the index and the subscriber of the
    first entry with the id. *)
Fixpoint find_id (i : nat) (subs : list subscriber) (n : Z)
  : option (nat * subscriber) :=
  match subs with
  | [] => None
  | sub :: rest =>
      if bool_decide (id sub = n) then Some (i, sub)
      else find_id (S i) rest n
  end.

(** [unsubscribe] returns the hub after it and the subscribers whose
    [close()] it called. *)
Definition unsubscribe (h : simplehub) (n : Z) : simplehub * list subscriber :=
  match find_id 0 (subscribers h) n with
  | Some (i, sub) =>
      ({| subscribers := take i (subscribers h) ++ drop (S i) (subscribers h);
          idx := idx h |},
       [sub])
  | None => (h, [])
  end.

(** [handle.Unsubscribe] *)
Definition Unsubscribe (h : simplehub) (hd : handle)
  : simplehub * list subscriber :=
  unsubscribe h (handle_id hd).

(** *** Publish

    [Publish] ranges over the subscribers and hands one closure
    [func() { defer wait.Done(); s.handler(topic, data) }] to each one
    that matches, then starts the goroutine [wait.Wait(); close(done)]
    and returns.  The closures run in the subscribers' own goroutines,
    at any time from the moment they are handed over, so one call is a
    transition system: the steps of [Publish] itself ([visit], [spawn]),
    of the closures ([begin], [finish]) and of the waiting goroutine
    ([close_done]) interleave.  The hub's mutex keeps other hub
    operations out while [Publish] runs.

    Modelled from the spec: [subscriber.notify], declared in a file that
    is not among the sources.  The spec: the hub hands a notification
    closure to each matched subscriber and trusts that collaborator to
    execute it (inline, queued, or on its own worker) and signal
    completion.  Here [notify] puts the closure in [queued]; when and in
    which order the collaborator runs it is left open. *)

Record flight : Type := mkFlight {
  fl_topic : string;
  fl_data : value;
  todo : list subscriber;       (* the subscribers the range has yet to visit *)
  loopvar : option subscriber;  (* the range variable [s] *)
  wait : nat;                   (* the counter of the WaitGroup *)
  queued : list subscriber;     (* closures handed to notify and not started, by the subscriber notified *)
  running : list subscriber;    (* closures inside [s.handler(topic, data)] *)
  ran : list subscriber;        (* closures that returned, after their [wait.Done()] *)
  calls : list (handlerfn * string * value);  (* the handlers called, with their arguments *)
  returned : bool;              (* [Publish] has returned its handle *)
  waiter : bool;                (* the goroutine [wait.Wait(); close(done)] is alive *)
  closes : nat                  (* how many times [close(done)] ran *)
}.

(** [done := make(chan struct{}); wait := sync.WaitGroup{}] *)
Definition start (h : simplehub) (t : string) (data : value) : flight :=
  {| fl_topic := t; fl_data := data; todo := subscribers h; loopvar := None;
     wait := 0; queued := []; running := []; ran := []; calls := [];
     returned := false; waiter := false; closes := 0 |}.

(** One iteration of [for _, s := range h.subscribers]. *)
Definition visit (fl : flight) : flight :=
  match todo fl with
  | [] => fl
  | s :: rest =>
      if matchTopic s (fl_topic fl) then
        {| fl_topic := fl_topic fl; fl_data := fl_data fl; todo := rest;
           loopvar := Some s; wait := S (wait fl);
           queued := queued fl ++ [s]; running := running fl; ran := ran fl;
           calls := calls fl; returned := returned fl; waiter := waiter fl;
           closes := closes fl |}
      else
        {| fl_topic := fl_topic fl; fl_data := fl_data fl; todo := rest;
           loopvar := Some s; wait := wait fl;
           queued := queued fl; running := running fl; ran := ran fl;
           calls := calls fl; returned := returned fl; waiter := waiter fl;
           closes := closes fl |}
  end.

(** [go func() { wait.Wait(); close(done) }()] and the return. *)
Definition spawn (fl : flight) : flight :=
  {| fl_topic := fl_topic fl; fl_data := fl_data fl; todo := todo fl;
     loopvar := loopvar fl; wait := wait fl;
     queued := queued fl; running := running fl; ran := ran fl;
     calls := calls fl; returned := true; waiter := true;
     closes := closes fl |}.

(** The [i]-th queued closure starts: it calls [s.handler(topic, data)].
    The closure refers to the range variable [s], which in the Go of
    this code (before 1.22) is one variable for the whole loop: the
    handler called is that of the subscriber the loop is at, or ended
    at, when the closure runs. *)
Definition begin (i : nat) (fl : flight) : option flight :=
  match queued fl !! i, loopvar fl with
  | Some s, Some cur =>
      Some {| fl_topic := fl_topic fl; fl_data := fl_data fl; todo := todo fl;
              loopvar := loopvar fl; wait := wait fl;
              queued := delete i (queued fl); running := running fl ++ [s];
              ran := ran fl;
              calls := calls fl ++ [(handler cur, fl_topic fl, fl_data fl)];
              returned := returned fl; waiter := waiter fl;
              closes := closes fl |}
  | _, _ => None
  end.

(** The handler of the [i]-th running closure returns (or panics) and the
    deferred [wait.Done()] runs.  [Done] on a zero counter panics, so
    there is no step from such a state. *)
Definition finish (i : nat) (fl : flight) : option flight :=
  match running fl !! i, wait fl with
  | Some s, S n =>
      Some {| fl_topic := fl_topic fl; fl_data := fl_data fl; todo := todo fl;
              loopvar := loopvar fl; wait := n;
              queued := queued fl; running := delete i (running fl);
              ran := ran fl ++ [s]; calls := calls fl;
              returned := returned fl; waiter := waiter fl;
              closes := closes fl |}
  | _, _ => None
  end.

(** [wait.Wait()] returns once the counter is zero, and [close(done)]
    follows. *)
Definition close_done (fl : flight) : option flight :=
  if waiter fl && Nat.eqb (wait fl) 0 then
    Some {| fl_topic := fl_topic fl; fl_data := fl_data fl; todo := todo fl;
            loopvar := loopvar fl; wait := wait fl;
            queued := queued fl; running := running fl; ran := ran fl;
            calls := calls fl; returned := returned fl; waiter := false;
            closes := S (closes fl) |}
  else None.

Inductive step : flight → flight → Prop :=
| step_visit fl : todo fl ≠ [] → returned fl = false → step fl (visit fl)
| step_spawn fl : todo fl = [] → returned fl = false → step fl (spawn fl)
| step_begin i fl fl' : begin i fl = Some fl' → step fl fl'
| step_finish i fl fl' : finish i fl = Some fl' → step fl fl'
| step_close fl fl' : close_done fl = Some fl' → step fl fl'.

(** The states one call [Publish(topic, data)] on [h] can be in. *)
Definition reachable (h : simplehub) (t : string) (data : value) (fl : flight)
  : Prop :=
  rtc step (start h t data) fl.

(** [doneHandle.Complete] returns the channel [done]; a receive from it
    succeeds once the channel is closed. *)
Definition Complete (fl : flight) : bool := negb (Nat.eqb (closes fl) 0).

(** [n] iterations of the range loop. *)
Fixpoint range (n : nat) (fl : flight) : flight :=
  match n with
  | O => fl
  | S n => range n (visit fl)
  end.

(** [Publish] up to its return: the whole loop, then [spawn].  The
    result is the flight that the returned handle observes; the error is
    always nil. *)
Definition Publish (h : simplehub) (t : string) (data : value) : result flight :=
  Ok (spawn (range (length (subscribers h)) (start h t data))).

(** The subscribers a publish has handed a closure to. *)
Definition notified (fl : flight) : list subscriber :=
  ran fl ++ running fl ++ queued fl.

(** *** Sequences of operations on one hub *)

Inductive op : Type :=
| OpSubscribe (t : string) (hd : handlerfn)
| OpUnsubscribe (n : Z)
| OpPublish (t : string) (data : value).

(** One operation: the hub after it, and the id it assigned, if any. *)
Definition exec (h : simplehub) (o : op) : simplehub * list Z :=
  match o with
  | OpSubscribe t hd =>
      match Subscribe h t hd with
      | (Ok hdl, h') => (h', [handle_id hdl])
      | (_, h') => (h', [])
      end
  | OpUnsubscribe n => (fst (unsubscribe h n), [])
  | OpPublish t data => (h, [])
  end.

(** The hub after the operations, and the ids assigned, oldest first. *)
Fixpoint run (ops : list op) (h : simplehub) : simplehub * list Z :=
  match ops with
  | [] => (h, [])
  | o :: rest =>
      let '(h1, a1) := exec h o in
      let '(h2, a2) := run rest h1 in
      (h2, a1 ++ a2)
  end.

Definition assigned (ops : list op) : list Z := snd (run ops NewSimpleHub).

(** *** What the properties speak of *)

(** The subscribers whose pattern accepts [t], in registry order. *)
Definition matching (t : string) (subs : list subscriber) : list subscriber :=
  filter (λ s, matchTopic s t = true) subs.

(** What holds of every state of a call [Publish(t, data)] on [h]. *)
Record flight_inv (h : simplehub) (t : string) (data : value) (fl : flight)
  : Prop := mkInv {
  inv_topic : fl_topic fl = t;
  inv_data : fl_data fl = data;
  inv_wait : wait fl = (length (queued fl) + length (running fl))%nat;
  inv_returned : returned fl = true → todo fl = [];
  inv_before : returned fl = false → waiter fl = false ∧ closes fl = 0%nat;
  inv_waiter : waiter fl = true → closes fl = 0%nat;
  inv_after : returned fl = true → waiter fl = false → closes fl = 1%nat;
  inv_closed : closes fl ≠ 0%nat → closes fl = 1%nat ∧ wait fl = 0%nat;
  inv_notified :
    notified fl ++ matching t (todo fl) ≡ₚ matching t (subscribers h);
  inv_loopvar : queued fl ≠ [] → is_Some (loopvar fl)
}.

End simplehub.

(** ** encoding/json *)

(** [Marshal] reads the maps it serialises from the heap.  [Unmarshal]
    is given the type and the present value of the variable its pointer
    argument points to, and returns what the variable holds afterwards
    (also when it fails), with the heap in which it allocated the maps
    it made. *)
Class Json : Type := {
  bytes : Type;
  Marshal : heap → value → error + bytes;
  Unmarshal : heap → bytes → reflect.Type_ → value → heap * value * option error
}.

(** ** The structured hub *)

#[global] Instance Kind_eq_dec : EqDecision reflect.Kind.
Proof. solve_decision. Defined.

(** The map a variable of type [map[string]interface{}] holds. *)
Definition as_map (v : value) : option loc :=
  match v with
  | VMap _ r => r
  | _ => None
  end.

(** [checkHandler]; the log line of the last test is left out. *)
Definition checkHandler (handler : value) : result reflect.Type_ :=
  match TypeOf handler with
  | None => Panic "invalid memory address or nil pointer dereference"
  | Some t =>
      if bool_decide (reflect.kind t ≠ reflect.Func) then
        Err (NotValidf "handler of type %T")
      else if bool_decide (reflect.NumIn t ≠ 3%nat) || bool_decide (reflect.NumOut t ≠ 0%nat) then
        Err (NotValidf "incorrect handler signature")
      else
        let arg1 := reflect.In_ t 0 in
        let arg2 := reflect.In_ t 1 in
        let arg3 := reflect.In_ t 2 in
        if bool_decide (reflect.kind arg1 ≠ reflect.String) then
          Err (NotValidf "incorrect handler signature, first arg should be a string for topic")
        else if bool_decide (reflect.kind arg2 ≠ reflect.Struct) && negb (reflect.is_mapType arg2) then
          Err (NotValidf "incorrect handler signature, second arg should be a structure for data")
        else if bool_decide (reflect.kind arg3 ≠ reflect.Interface) || bool_decide (reflect.Name arg3 ≠ "error") then
          Err (NotValidf "incorrect handler signature, third arg should error for deserialization errors")
        else Ok arg2
  end.

(** [f.Call(args)] of package reflect, for arguments whose
    [reflect.Value]s have the types [args]: whether the call is made.
    [Call] panics when [f] is no function, when it is the nil function,
    when the number of arguments is not the number of parameters (the
    functions of the fragment are not variadic), and when the type of an
    argument is not assignable to the type of its parameter. *)
Definition Call (f : value) (args : list reflect.Type_) : result () :=
  match f with
  | VFunc _ _ None => Panic "reflect: call of nil function"
  | VFunc ins _ (Some _) =>
      if bool_decide (length args < length ins)%nat then
        Panic "reflect: Call with too few input arguments"
      else if bool_decide (length ins < length args)%nat then
        Panic "reflect: Call with too many input arguments"
      else if forallb (fun xt => reflect.AssignableTo xt.1 xt.2) (zip args ins) then
        Ok ()
      else Panic "reflect: Call using an argument as a type it is not assignable to"
  | _ => Panic "reflect: call of reflect.Value.Call on a Value that is no func"
  end.

Section structuredHub.
Context `{Regexp} `{Json}.

Record structuredHub : Type := mkStructuredHub {
  hub : simplehub;               (* the embedded simplehub *)
  annotations : option loc       (* the map given to the constructor *)
}.

(** [NewStructuredHub] keeps the caller's map, not a copy of it. *)
Definition NewStructuredHub (annotations : option loc) : structuredHub :=
  {| hub := NewSimpleHub; annotations := annotations |}.

Definition toStringMap (σ : heap) (data : value) : result (heap * option loc) :=
  match TypeOf data with
  | None => Panic "invalid memory address or nil pointer dereference"
  | Some dataType =>
      if reflect.AssignableTo_mapType dataType then
        match data with
        | VMap EmptyString cast => Ok (σ, cast)
        | _ => Err (Errorf "%T assignable to map[string]interface{} but isn't one?")
        end
      else
        match Marshal σ data with
        | inl err => Err (Annotate err "json marshalling")
        | inr bs =>
            match Unmarshal σ bs reflect.mapType (VMap "" None) with
            | (_, _, Some err) => Err (Annotate err "json unmarshalling")
            | (σ', result, None) => Ok (σ', as_map result)
            end
        end
  end.

(** [for key, value := range h.annotations], over the entries in the
    order the range yields them. *)
Fixpoint merge (kvs : list (string * value)) (σ : heap) (asMap : option loc)
  : result heap :=
  match kvs with
  | [] => Ok σ
  | (key, value) :: rest =>
      match map_read σ asMap !! key with
      | Some _ => merge rest σ asMap
      | None =>
          match map_assign σ asMap key value with
          | Ok σ' => merge rest σ' asMap
          | Err e => Err e
          | Panic m => Panic m
          end
      end
  end.

(** [structuredHub.Publish].  It assigns to a map only in the merge
    loop, which neither fails after an assignment nor is reached after
    an error: with an error or a panic no heap is returned. *)
Definition structured_Publish (σ : heap) (h : structuredHub) (t : string)
    (data : value) : result (heap * flight) :=
  match toStringMap σ data with
  | Panic m => Panic m
  | Err err => Err (Trace err)
  | Ok (σ1, asMap) =>
      match merge (map_to_list (map_read σ1 (annotations h))) σ1 asMap with
      | Panic m => Panic m
      | Err e => Err e
      | Ok σ2 =>
          match Publish (hub h) t (VMap "" asMap) with
          | Ok fl => Ok (σ2, fl)
          | Err e => Err e
          | Panic m => Panic m
          end
      end
  end.

Definition toHanderType (σ : heap) (rt : reflect.Type_) (data : option loc)
  : heap * value * option error :=
  if reflect.is_mapType rt then (σ, VMap "" data, None)
  else
    let sv := zero rt in
    match Marshal σ (VMap "" data) with
    | inl err => (σ, sv, Some (Annotate err "json marshalling"))
    | inr bs =>
        match Unmarshal σ bs rt sv with
        | (σ', sv', Some err) => (σ', sv', Some (Annotate err "json unmarshalling"))
        | (σ', sv', None) => (σ', sv', None)
        end
    end.

(** The closure [deserialize] of [structuredHub.Subscribe], for the
    handler [f] and the type [rt] of its data parameter: the heap after
    it and the calls of [f] it made, or the panic of [f.Call].  The
    arguments of the call are [reflect.Value]s of the types [string],
    [rt] (in both branches, and in [toHanderType] with the map as with a
    new record) and [error]. *)
Definition deserialize (rt : reflect.Type_) (f : value) (σ : heap) (t : string)
    (data : value) : result (heap * list call) :=
  let '(σ', value, err) :=
    match data with
    | VMap EmptyString asMap => toHanderType σ rt asMap
    | _ => (σ, zero rt, Some (Errorf "bad publish data: %v"))
    end in
  match Call f [reflect.TString; rt; reflect.errorType] with
  | Ok _ => Ok (σ', [CallStructured f t value err])
  | Err e => Err e
  | Panic m => Panic m
  end.

(** [structuredHub.Subscribe] *)
Definition structured_Subscribe (h : structuredHub) (t : string) (handler : value)
  : result handle * structuredHub :=
  match checkHandler handler with
  | Panic m => (Panic m, h)
  | Err err => (Err (Trace err), h)
  | Ok rt =>
      let '(r, b) := Subscribe (hub h) t (Deserialize rt handler) in
      (r, {| hub := b; annotations := annotations h |})
  end.

End structuredHub.

(** ** Instances to run the definitions on inputs *)

(** *** Literal patterns

    The patterns made of literal characters, with an optional [.*] at
    the end, and Go's unanchored matching: such a pattern matches the
    strings in which the literal occurs.  Other patterns are refused
    here, though regexp compiles many of them. *)

Definition is_meta (c : ascii) : bool :=
  existsb (Ascii.eqb c) (String.list_ascii_of_string "\.+*?()|[]{}^$").

Fixpoint literal_of (p : string) : option string :=
  match p with
  | EmptyString => Some EmptyString
  | String "."%char (String "*"%char EmptyString) => Some EmptyString
  | String c p' =>
      if is_meta c then None else option_map (String c) (literal_of p')
  end.

Fixpoint contains (p s : string) : bool :=
  String.prefix p s ||
  match s with
  | EmptyString => false
  | String _ s' => contains p s'
  end.

#[global] Instance LiteralRegexp : Regexp := {|
  regexp := string;
  Compile p :=
    match literal_of p with
    | Some l => inr l
    | None => inl (External "regexp" "pattern outside the literal fragment")
    end;
  MatchString := contains
|}.

(** *** A small encoding/json

    The serialised text is kept as its syntax tree.  The decoder follows
    the documented behaviour of [json.Unmarshal] on a struct: a member
    that does not fit its field is skipped, decoding goes on, and the
    first such mismatch is the error returned.  It covers records whose
    fields are of type bool, int, float64, string, [interface{}] or
    [map[string]interface{}], with exported field names matched as they
    are written; a member for a field of another type counts as a
    mismatch here. *)

Inductive json : Type :=
| JNull
| JBool (b : bool)
| JNum (n : Z)
| JStr (s : string)
| JObj (members : list (string * json)).

Definition unsupported (what : string) : error :=
  External "json" ("unsupported type: " ++ what).

(** [json.Marshal], to a depth of [fuel] nested maps and structs. *)
Fixpoint encode (fuel : nat) (σ : heap) (v : value) : error + json :=
  let members (kvs : list (string * value)) (enc : value → error + json) :=
    foldr (fun kv acc =>
             match enc (snd kv), acc with
             | inr j, inr js => inr ((fst kv, j) :: js)
             | inl e, _ => inl e
             | _, inl e => inl e
             end) (inr []) kvs in
  match v with
  | VNil => inr JNull
  | VBool b => inr (JBool b)
  | VInt n => inr (JNum n)
  | VFloat64 n => inr (JNum n)
  | VString s => inr (JStr s)
  | VChan _ => inl (unsupported "chan")
  | VFunc _ _ _ => inl (unsupported "func")
  | VMap _ None => inr JNull
  | VMap _ (Some l) =>
      match fuel with
      | O => inl (External "json" "unsupported value: encountered a cycle")
      | S fuel' =>
          match members (map_to_list (map_read σ (Some l))) (encode fuel' σ) with
          | inr js => inr (JObj js)
          | inl e => inl e
          end
      end
  | VStruct _ fs vals =>
      match fuel with
      | O => inl (External "json" "unsupported value: encountered a cycle")
      | S fuel' =>
          match members (zip (map fst fs) vals) (encode fuel' σ) with
          | inr js => inr (JObj js)
          | inl e => inl e
          end
      end
  end.

(** Decoding into an [interface{}]: numbers become [float64], objects
    become new maps. *)
Fixpoint decode (j : json) (σ : heap) : heap * value :=
  match j with
  | JNull => (σ, VNil)
  | JBool b => (σ, VBool b)
  | JNum n => (σ, VFloat64 n)
  | JStr s => (σ, VString s)
  | JObj ms =>
      let '(σ1, m) :=
        (fix members (ms : list (string * json)) (σ : heap) (m : entries)
           : heap * entries :=
           match ms with
           | [] => (σ, m)
           | (k, j') :: rest =>
               let '(σ1, v) := decode j' σ in
               members rest σ1 (<[k := v]> m)
           end) ms σ ∅ in
      let l := fresh (dom σ1) in
      (<[l := m]> σ1, VMap "" (Some l))
  end.

Definition mismatch (j : json) (t : reflect.Type_) : error :=
  External "json"
    ("cannot unmarshal into Go value of type " ++ reflect.Name t).

(** Decoding one member into a field of type [t] holding [old]. *)
Definition decode_field (j : json) (t : reflect.Type_) (old : value) (σ : heap)
  : heap * value * option error :=
  match j, t with
  | JNull, _ => (σ, old, None)
  | JBool b, reflect.TBool => (σ, VBool b, None)
  | JNum n, reflect.TInt => (σ, VInt n, None)
  | JNum n, reflect.TFloat64 => (σ, VFloat64 n, None)
  | JStr s, reflect.TString => (σ, VString s, None)
  | JStr s, reflect.TDefString _ => (σ, VString s, None)
  | JObj _, reflect.TMap n =>
      let '(σ', v) := decode j σ in (σ', VMap n (as_map v), None)
  | _, reflect.TInterface EmptyString [] =>
      let '(σ', v) := decode j σ in (σ', v, None)
  | _, _ => (σ, old, Some (mismatch j t))
  end.

(** The position of the field called [k]. *)
Fixpoint field_index (k : string) (fs : list (string * reflect.Type_)) (i : nat)
  : option (nat * reflect.Type_) :=
  match fs with
  | [] => None
  | (name, t) :: rest =>
      if bool_decide (name = k) then Some (i, t) else field_index k rest (S i)
  end.

(** Decoding the members of an object into the fields of a struct, in
    the order of the text; [err] is the first mismatch so far. *)
Fixpoint decode_members (ms : list (string * json))
    (fs : list (string * reflect.Type_)) (vals : list value) (σ : heap)
    (err : option error) : heap * list value * option error :=
  match ms with
  | [] => (σ, vals, err)
  | (k, j) :: rest =>
      match field_index k fs 0 with
      | None => decode_members rest fs vals σ err
      | Some (i, t) =>
          let '(σ', v, e) := decode_field j t (default VNil (vals !! i)) σ in
          decode_members rest fs (<[i := v]> vals) σ'
            (match err with Some _ => err | None => e end)
      end
  end.

Definition decode_into (σ : heap) (j : json) (t : reflect.Type_) (target : value)
  : heap * value * option error :=
  match t, target, j with
  | _, _, JNull => (σ, target, None)
  | reflect.TStruct _ _, VStruct n fs vals, JObj ms =>
      let '(σ', vals', err) := decode_members ms fs vals σ None in
      (σ', VStruct n fs vals', err)
  | _, _, _ => decode_field j t target σ
  end.

(** [Marshal] gives up, as on a cycle, below 16 levels of nesting. *)
#[global] Instance GoJson : Json := {|
  bytes := json;
  Marshal := encode 16;
  Unmarshal := decode_into
|}.

(** ** Inputs for the examples *)

(** A caller's [func(string, interface{})]. *)
Definition plain_handler : handlerfn :=
  Plain (VFunc [reflect.TString; reflect.TInterface "" []] [] (Some 0%nat)).

(** A record type, a handler for it and a handler for the map type. *)
Definition Msg : reflect.Type_ :=
  reflect.TStruct "Msg" [("Count", reflect.TInt); ("Name", reflect.TString)].

Definition msg_handler : value :=
  VFunc [reflect.TString; Msg; reflect.errorType] [] (Some 1%nat).

Definition map_handler : value :=
  VFunc [reflect.TString; reflect.mapType; reflect.errorType] [] (Some 2%nat).

(** [type Topic string] and a handler [func(Topic, Msg, error)]. *)
Definition Topic : reflect.Type_ := reflect.TDefString "Topic".

Definition topic_handler : value :=
  VFunc [Topic; Msg; reflect.errorType] [] (Some 3%nat).

(** A handler whose third parameter is of an interface type of the
    caller's own that is named [error] and has one more method. *)
Definition coded_handler : value :=
  VFunc [reflect.TString; Msg;
         reflect.TInterface "error" ["Code() int"; "Error() string"]]
    [] (Some 4%nat).

(** [var f func(string, Msg, error)]: the nil function of the type. *)
Definition nil_handler : value :=
  VFunc [reflect.TString; Msg; reflect.errorType] [] None.

(** The heap of the examples: at 1 the annotations [{"app": "x"}], at 2
    a caller's map [{"topic": "foo.bar", "value": 1}], at 3 a payload
    whose ["Count"] is not a number. *)
Definition example_heap : heap :=
  {[ 1%positive := {[ "app" := VString "x" ]};
     2%positive := {[ "topic" := VString "foo.bar"; "value" := VInt 1 ]};
     3%positive := {[ "Count" := VString "many"; "Name" := VString "x" ]} ]}.

(** A structured hub with the annotations at 1 and one subscriber, for
    the pattern [foo.*] with the map-typed handler. *)
Definition example_hub : structuredHub :=
  snd (structured_Subscribe (NewStructuredHub (Some 1%positive)) "foo.*" map_handler).

(** A publish on the example hub run to its end: the loop, the return,
    the one closure from start to finish, and [close(done)]. *)
Definition example_final : flight :=
  Eval vm_compute in
    default (start (hub example_hub) "foo.bar" (VMap "" (Some 2%positive)))
      (match Publish (hub example_hub) "foo.bar" (VMap "" (Some 2%positive)) with
       | Ok fl =>
           match begin 0 fl with
           | Some fl1 =>
               match finish 0 fl1 with
               | Some fl2 => close_done fl2
               | None => None
               end
           | None => None
           end
       | _ => None
       end).

(** Operations on a new simple hub; the fourth has a pattern that does
    not compile. *)
Definition example_ops : list op :=
  [OpSubscribe "a" plain_handler; OpSubscribe "b.*" plain_handler;
   OpUnsubscribe 0; OpSubscribe "(" plain_handler; OpPublish "a" VNil;
   OpSubscribe "c" plain_handler].

(** A registry of two subscribers, with the ids 0 and 1. *)
Definition example_registry : simplehub :=
  fst (run [OpSubscribe "a" plain_handler; OpSubscribe "b.*" plain_handler]
         NewSimpleHub).

(** As many operations as the largest [int], 2^63 - 1. *)
Definition many : nat := Z.to_nat int_max.

(** The same publish when its one closure has started and not
    finished. *)
Definition example_running : flight :=
  Eval vm_compute in
    default (start (hub example_hub) "foo.bar" (VMap "" (Some 2%positive)))
      (match Publish (hub example_hub) "foo.bar" (VMap "" (Some 2%positive)) with
       | Ok fl => begin 0 fl
       | _ => None
       end).

(** ** What the further properties speak of *)

Section simplehub_measures.
Context `{Regexp}.

(** The registry [unsubscribe] leaves: the subscribers without the first
    one that has the id. *)
Fixpoint drop_id (n : Z) (subs : list subscriber) : list subscriber :=
  match subs with
  | [] => []
  | s :: rest => if bool_decide (id s = n) then rest else s :: drop_id n rest
  end.

(** The steps a publish has ahead of it: one for each subscriber still
    to visit, two for each closure not yet started (those still to be
    dispatched too), one for each closure that is running, one for the
    return and one for [close(done)]. *)
Definition steps_left (fl : flight) : nat :=
  (length (todo fl) + 2 * length (matching (fl_topic fl) (todo fl))
   + 2 * length (queued fl) + length (running fl)
   + (if returned fl then 0 else 1)
   + (if Nat.eqb (closes fl) 0 then 1 else 0))%nat.

End simplehub_measures.

(** * Properties *)

(** ** Go's int *)

Lemma wrap_small (z : Z) : int_min ≤ z ≤ int_max → wrap z = z.
Proof.
  unfold wrap, int_min, int_max. intros Hz.
  rewrite Z.mod_small by lia. lia.
Qed.

Lemma wrap_max : wrap (int_max + 1) = int_min.
Proof. reflexivity. Qed.

Lemma seqZ_sorted (n : nat) (i : Z) : StronglySorted Z.lt (seqZ i (Z.of_nat n)).
Proof.
  revert i. induction n as [|n IH]; intros i.
  - constructor.
  - rewrite Nat2Z.inj_succ, seqZ_cons by lia.
    replace (Z.pred (Z.succ (Z.of_nat n))) with (Z.of_nat n) by lia.
    constructor; [apply IH|].
    apply Forall_forall. intros x Hx.
    apply elem_of_seqZ in Hx. lia.
Qed.

Lemma sorted_lt_NoDup (l : list Z) : StronglySorted Z.lt l → NoDup l.
Proof.
  induction 1 as [|x l _ IH Hx]; constructor; [|exact IH].
  intros Hin. rewrite Forall_forall in Hx.
  apply Hx in Hin. lia.
Qed.

(** ** The simple hub *)

Section simplehub_facts.
Context `{Regexp}.

(** *** The range loop of Publish *)

Lemma range_spec (fl : flight) :
  let fl' := range (length (todo fl)) fl in
  fl_topic fl' = fl_topic fl ∧ fl_data fl' = fl_data fl ∧ todo fl' = [] ∧
  wait fl' = (wait fl + length (matching (fl_topic fl) (todo fl)))%nat ∧
  queued fl' = queued fl ++ matching (fl_topic fl) (todo fl) ∧
  running fl' = running fl ∧ ran fl' = ran fl ∧ calls fl' = calls fl ∧
  returned fl' = returned fl ∧ waiter fl' = waiter fl ∧ closes fl' = closes fl.
Proof.
  remember (todo fl) as l eqn:Hl. revert fl Hl.
  induction l as [|s l IH]; intros fl Hl; simpl.
  - unfold matching. rewrite filter_nil, app_nil_r, Nat.add_0_r.
    repeat split; auto.
  - specialize (IH (visit fl)).
    unfold visit in *. rewrite <- Hl in *. unfold matching in *.
    destruct (matchTopic s (fl_topic fl)) eqn:Hm; simpl in IH.
    + rewrite filter_cons_True by done.
      destruct (IH eq_refl) as (-> & -> & -> & -> & -> & -> & -> & -> & -> & -> & ->).
      rewrite <- app_assoc. simpl. repeat split; auto; lia.
    + rewrite filter_cons_False by (rewrite Hm; done).
      destruct (IH eq_refl) as (-> & -> & -> & -> & -> & -> & -> & -> & -> & -> & ->).
      repeat split; auto.
Qed.

Lemma Publish_spec (h : simplehub) (t : string) (data : value) :
  ∃ fl, Publish h t data = Ok fl ∧
    fl_topic fl = t ∧ fl_data fl = data ∧ todo fl = [] ∧
    wait fl = length (matching t (subscribers h)) ∧
    queued fl = matching t (subscribers h) ∧
    running fl = [] ∧ ran fl = [] ∧ calls fl = [] ∧
    returned fl = true ∧ waiter fl = true ∧ closes fl = 0%nat.
Proof.
  eexists; split; [reflexivity|].
  pose proof (range_spec (start h t data)) as Hr. simpl in Hr.
  destruct Hr as (? & ? & ? & ? & ? & ? & ? & ? & ? & ? & ?).
  unfold spawn; simpl. repeat split; auto.
Qed.

Lemma range_steps (fl : flight) :
  returned fl = false → rtc step fl (range (length (todo fl)) fl).
Proof.
  remember (todo fl) as l eqn:Hl. revert fl Hl.
  induction l as [|s l IH]; intros fl Hl Hret; simpl.
  - constructor.
  - eapply rtc_l.
    + apply step_visit; [rewrite <- Hl; done | done].
    + apply IH.
      * unfold visit. rewrite <- Hl. by destruct (matchTopic _ _).
      * unfold visit. rewrite <- Hl. by destruct (matchTopic _ _).
Qed.

Lemma Publish_reachable (h : simplehub) (t : string) (data : value) (fl : flight) :
  Publish h t data = Ok fl → reachable h t data fl.
Proof.
  intros [= <-]. unfold reachable.
  pose proof (range_steps (start h t data) eq_refl) as Hr. simpl in Hr.
  eapply rtc_r; [exact Hr|].
  pose proof (range_spec (start h t data)) as Hs. simpl in Hs.
  destruct Hs as (? & ? & ? & ? & ? & ? & ? & ? & ? & ? & ?).
  apply step_spawn; assumption.
Qed.

(** *** The invariant of a publish *)

Lemma inv_start (h : simplehub) (t : string) (data : value) :
  flight_inv h t data (start h t data).
Proof.
  constructor; simpl; try done.
Qed.

Lemma inv_step (h : simplehub) (t : string) (data : value) (fl fl' : flight) :
  flight_inv h t data fl → step fl fl' → flight_inv h t data fl'.
Proof.
  intros [Ht Hd Hw Hr Hb Hwt Ha Hc Hn Hlv] Hstep.
  destruct Hstep as [fl Htodo Hret | fl Htodo Hret | i fl fl' Hbeg
                    | i fl fl' Hfin | fl fl' Hcl].
  - (* visit *)
    unfold visit. destruct (todo fl) as [|s rest] eqn:Hl; [done|].
    destruct (Hb Hret) as [Hw0 Hc0].
    unfold notified, matching in *.
    destruct (matchTopic s (fl_topic fl)) eqn:Hm; constructor; simpl;
      try done; try (intros; congruence).
    + rewrite length_app. simpl. lia.
    + rewrite Ht in Hm. rewrite filter_cons_True in Hn by done.
      rewrite <- Hn. solve_Permutation.
    + rewrite Ht in Hm. rewrite filter_cons_False in Hn by (rewrite Hm; done).
      exact Hn.
  - (* spawn *)
    destruct (Hb Hret) as [Hw0 Hc0].
    constructor; simpl; try done; intros; congruence.
  - (* begin *)
    unfold begin in Hbeg.
    destruct (queued fl !! i) as [s|] eqn:Hq; [|done].
    destruct (loopvar fl) as [cur|]; [|done].
    injection Hbeg as <-.
    pose proof (lookup_lt_Some _ _ _ Hq) as Hlt.
    unfold notified in *.
    constructor; simpl; try done.
    + rewrite length_delete by eauto. rewrite length_app. simpl. lia.
    + rewrite <- Hn. rewrite (delete_Permutation _ _ _ Hq) at 2.
      solve_Permutation.
  - (* finish *)
    unfold finish in Hfin.
    destruct (running fl !! i) as [s|] eqn:Hq; [|done].
    destruct (wait fl) as [|n] eqn:Hwn; [done|].
    injection Hfin as <-.
    pose proof (lookup_lt_Some _ _ _ Hq) as Hlt.
    unfold notified in *.
    constructor; simpl; try done.
    + rewrite length_delete by eauto. lia.
    + intros Hne. destruct (Hc Hne) as [_ Hz]. done.
    + rewrite <- Hn. rewrite (delete_Permutation _ _ _ Hq) at 2.
      solve_Permutation.
  - (* close(done) *)
    unfold close_done in Hcl.
    destruct (waiter fl) eqn:Hwa; [|done].
    destruct (Nat.eqb_spec (wait fl) 0) as [Hz|]; [|done].
    injection Hcl as <-.
    specialize (Hwt eq_refl).
    constructor; simpl; try done.
    + intros Hret. destruct (returned fl) eqn:Hr'; [done|].
      destruct (Hb eq_refl); congruence.
    + intros _ _. lia.
    + intros _. split; [lia | done].
Qed.

Lemma reachable_inv (h : simplehub) (t : string) (data : value) (fl : flight) :
  reachable h t data fl → flight_inv h t data fl.
Proof.
  unfold reachable. revert fl. apply rtc_ind_r.
  - apply inv_start.
  - intros fl1 fl2 _ Hstep IH. eapply inv_step; eauto.
Qed.

(** *** Matching and fan-out *)

Lemma elem_of_matching (t : string) (subs : list subscriber) (s : subscriber) :
  s ∈ matching t subs ↔ MatchString (topic s) t = true ∧ s ∈ subs.
Proof. unfold matching. rewrite list_elem_of_filter. reflexivity. Qed.

Lemma matching_Permutation (t : string) (l1 l2 : list subscriber) :
  l1 ≡ₚ l2 → matching t l1 ≡ₚ matching t l2.
Proof. unfold matching. intros ->. done. Qed.

(** C1. For every hub, topic and payload, [Publish] hands a closure to
    exactly the registered subscribers whose pattern's matcher accepts
    the topic string, one closure each and in whatever state of the
    publish the loop has ended; matching is the function [MatchString]
    of the pattern and the topic, [Publish] returns no changed hub, and
    registering the same subscribers in another order notifies the same
    subscribers. *)
Theorem publish_notifies_iff_match (h : simplehub) (t : string) (data : value) :
  (∃ fl, Publish h t data = Ok fl ∧
     notified fl = matching t (subscribers h) ∧
     (∀ s, s ∈ subscribers h →
        (s ∈ notified fl ↔ MatchString (topic s) t = true)) ∧
     (∀ h', subscribers h' ≡ₚ subscribers h →
        ∃ fl', Publish h' t data = Ok fl' ∧ notified fl' ≡ₚ notified fl ∧
          ∀ s, s ∈ notified fl' ↔ s ∈ notified fl)) ∧
  (∀ fl, reachable h t data fl → todo fl = [] →
     notified fl ≡ₚ matching t (subscribers h) ∧
     ∀ s, s ∈ subscribers h →
       (s ∈ notified fl ↔ MatchString (topic s) t = true)).
Proof.
  split.
  - destruct (Publish_spec h t data)
      as (fl & Hp & _ & _ & _ & _ & Hq & Hrun & Hran & _).
    exists fl. split; [exact Hp|].
    assert (Hn : notified fl = matching t (subscribers h)).
    { unfold notified. rewrite Hq, Hrun, Hran. reflexivity. }
    split; [exact Hn|]. split.
    + intros s Hs. rewrite Hn, elem_of_matching. tauto.
    + intros h' Hperm.
      destruct (Publish_spec h' t data)
        as (fl' & Hp' & _ & _ & _ & _ & Hq' & Hrun' & Hran' & _).
      exists fl'. split; [exact Hp'|].
      assert (Hn' : notified fl' ≡ₚ notified fl).
      { rewrite Hn. unfold notified. rewrite Hq', Hrun', Hran'. simpl.
        by apply matching_Permutation. }
      split; [exact Hn'|]. intros s. by rewrite Hn'.
  - intros fl Hr Htodo.
    destruct (reachable_inv _ _ _ _ Hr) as [_ _ _ _ _ _ _ _ Hn _].
    rewrite Htodo in Hn. unfold matching at 1 in Hn.
    rewrite filter_nil, app_nil_r in Hn.
    split; [exact Hn|].
    intros s Hs. rewrite Hn, elem_of_matching. tauto.
Qed.

(** *** Completion *)

Lemma Complete_closes (fl : flight) : Complete fl = true ↔ closes fl ≠ 0%nat.
Proof.
  unfold Complete. destruct (Nat.eqb_spec (closes fl) 0) as [->|]; simpl.
  - split; [done | intros []; done].
  - split; done.
Qed.

Lemma finished_resolves (h : simplehub) (t : string) (data : value) (fl : flight) :
  flight_inv h t data fl →
  todo fl = [] → queued fl = [] → running fl = [] →
  ∃ fl', rtc step fl fl' ∧ Complete fl' = true.
Proof.
  intros [_ _ Hw _ Hb Hwt Ha _ _ _] Htodo Hq Hrun.
  rewrite Hq, Hrun in Hw. simpl in Hw.
  assert (Hclose : ∀ f, waiter f = true → wait f = 0%nat →
            ∃ f', close_done f = Some f' ∧ Complete f' = true).
  { intros f Hwa Hz. unfold close_done. rewrite Hwa, Hz. simpl.
    eexists; split; [reflexivity|]. reflexivity. }
  destruct (returned fl) eqn:Hret.
  - destruct (waiter fl) eqn:Hwa.
    + destruct (Hclose fl Hwa Hw) as (fl' & Hc & Hd).
      exists fl'. split; [|exact Hd].
      apply rtc_once. by apply step_close.
    + exists fl. split; [constructor|].
      apply Complete_closes. rewrite (Ha eq_refl eq_refl). done.
  - destruct (Hclose (spawn fl) eq_refl Hw) as (fl' & Hc & Hd).
    exists fl'. split; [|exact Hd].
    eapply rtc_l; [by apply step_spawn|].
    apply rtc_once. by apply step_close.
Qed.

(** From every state of a publish some schedule resolves the handle:
    the loop ends, each closure starts and finishes, the waiter closes
    [done]. *)
Lemma publish_can_resolve (h : simplehub) (t : string) (data : value) (fl : flight) :
  reachable h t data fl → ∃ fl', rtc step fl fl' ∧ Complete fl' = true.
Proof.
  intros Hr. apply reachable_inv in Hr.
  remember (3 * length (todo fl) + 2 * length (queued fl) + length (running fl))%nat
    as n eqn:Hn.
  revert fl Hr Hn. induction n as [n IH] using lt_wf_ind. intros fl Hinv Hn.
  assert (Hnext : ∀ fl1, step fl fl1 →
            (3 * length (todo fl1) + 2 * length (queued fl1) + length (running fl1) < n)%nat →
            ∃ fl', rtc step fl fl' ∧ Complete fl' = true).
  { intros fl1 Hs Hlt.
    destruct (IH _ Hlt fl1 (inv_step _ _ _ _ _ Hinv Hs) eq_refl) as (fl' & Hrt & Hc).
    exists fl'. split; [by eapply rtc_l | exact Hc]. }
  destruct (todo fl) as [|s rest] eqn:Htodo.
  - destruct (queued fl) as [|q qs] eqn:Hq.
    + destruct (running fl) as [|r rs] eqn:Hrun.
      * by apply (finished_resolves h t data).
      * pose proof (inv_wait _ _ _ _ Hinv) as Hw. rewrite Hq, Hrun in Hw.
        simpl in Hw.
        eapply Hnext.
        -- apply (step_finish 0). unfold finish. rewrite Hrun, Hw. reflexivity.
        -- simpl. rewrite Htodo, Hq. simpl in *. lia.
    + destruct (inv_loopvar _ _ _ _ Hinv) as [cur Hcur]; [by rewrite Hq|].
      eapply Hnext.
      * apply (step_begin 0). unfold begin. rewrite Hq, Hcur. reflexivity.
      * simpl. rewrite Htodo, length_app. simpl in *. lia.
  - assert (Hret : returned fl = false).
    { destruct (returned fl) eqn:E; [|done].
      pose proof (inv_returned _ _ _ _ Hinv E) as Hnil. congruence. }
    eapply Hnext.
    + apply step_visit; [by rewrite Htodo | exact Hret].
    + unfold visit. rewrite Htodo.
      destruct (matchTopic s (fl_topic fl)); simpl; rewrite ?length_app;
        simpl in *; lia.
Qed.

(** C2. In every state that a call of [Publish] and the closures it
    dispatched can reach: the counter is the number of closures
    dispatched and not yet completed; [done] has been closed at most
    once; if the handle has resolved then the loop is over and every
    closure handed to a matching subscriber has completed; and once all
    of them have completed the handle resolves (it has, or the waiting
    goroutine's steps resolve it).  A [Publish] that matches no
    subscriber returns a handle and no error, and the handle resolves
    in one step, with no handler called. *)
Theorem completion_after_all_closures
    (h : simplehub) (t : string) (data : value) (fl : flight) :
  reachable h t data fl →
  (wait fl + length (ran fl) = length (notified fl))%nat ∧
  (closes fl ≤ 1)%nat ∧
  (Complete fl = true →
     todo fl = [] ∧ queued fl = [] ∧ running fl = [] ∧
     ran fl ≡ₚ matching t (subscribers h)) ∧
  (todo fl = [] → queued fl = [] → running fl = [] →
     ∃ fl', rtc step fl fl' ∧ Complete fl' = true) ∧
  (matching t (subscribers h) = [] →
     ∃ fl0 fl1, Publish h t data = Ok fl0 ∧ calls fl0 = [] ∧
       step fl0 fl1 ∧ Complete fl1 = true ∧ calls fl1 = []).
Proof.
  intros Hr. pose proof (reachable_inv _ _ _ _ Hr) as Hinv.
  pose proof Hinv as [_ _ Hw Hret Hb Hwt Ha Hc Hn _].
  split; [|split; [|split; [|split]]].
  - unfold notified. rewrite !length_app. lia.
  - destruct (decide (closes fl = 0%nat)) as [->|Hne]; [lia|].
    destruct (Hc Hne) as [-> _]. lia.
  - intros Hdone. apply Complete_closes in Hdone.
    destruct (Hc Hdone) as [Hone Hz].
    assert (Hreturned : returned fl = true).
    { destruct (returned fl) eqn:E; [done|].
      destruct (Hb eq_refl) as [_ Hzero]. congruence. }
    pose proof (Hret Hreturned) as Htodo.
    rewrite Hz in Hw.
    assert (Hq : queued fl = []) by (apply length_zero_iff_nil; lia).
    assert (Hrun : running fl = []) by (apply length_zero_iff_nil; lia).
    repeat split; try done.
    unfold notified in Hn. rewrite Htodo, Hq, Hrun in Hn.
    unfold matching at 1 in Hn.
    rewrite filter_nil, !app_nil_r in Hn. exact Hn.
  - by apply (finished_resolves h t data).
  - intros Hnone.
    destruct (Publish_spec h t data)
      as (fl0 & Hp & _ & _ & _ & Hw0 & _ & _ & _ & Hcalls & _ & Hwa & _).
    rewrite Hnone in Hw0. simpl in Hw0.
    exists fl0. eexists. split; [exact Hp|]. split; [exact Hcalls|].
    split; [apply step_close; unfold close_done; rewrite Hwa, Hw0; reflexivity|].
    split; [reflexivity | exact Hcalls].
Qed.

(** *** Unsubscribe *)

Lemma find_id_None (i : nat) (subs : list subscriber) (n : Z) :
  n ∉ id <$> subs → find_id i subs n = None.
Proof.
  revert i. induction subs as [|s subs IH]; intros i Hn; simpl; [done|].
  rewrite fmap_cons, not_elem_of_cons in Hn. destruct Hn as [Hne Hn].
  rewrite bool_decide_eq_false_2 by congruence. by apply IH.
Qed.

Lemma find_id_Some (i : nat) (subs : list subscriber) (n : Z) :
  n ∈ id <$> subs →
  ∃ l1 s l2, subs = l1 ++ s :: l2 ∧ id s = n ∧ (n ∉ id <$> l1) ∧
    find_id i subs n = Some ((i + length l1)%nat, s).
Proof.
  revert i. induction subs as [|s subs IH]; intros i Hn; simpl.
  - by apply elem_of_nil in Hn.
  - destruct (decide (id s = n)) as [Heq|Hne].
    + exists [], s, subs. rewrite bool_decide_eq_true_2 by done.
      simpl. rewrite Nat.add_0_r. repeat split; try done. apply not_elem_of_nil.
    + rewrite bool_decide_eq_false_2 by done.
      rewrite fmap_cons, elem_of_cons in Hn.
      destruct Hn as [Hn|Hn]; [congruence|].
      destruct (IH (S i) Hn) as (l1 & s' & l2 & -> & Hid & Hl1 & Hf).
      exists (s :: l1), s', l2. simpl. repeat split; try done.
      * rewrite not_elem_of_cons. split; [congruence | done].
      * rewrite Hf. do 2 f_equal. lia.
Qed.

Lemma unsubscribe_absent (h : simplehub) (n : Z) :
  n ∉ id <$> subscribers h → unsubscribe h n = (h, []).
Proof. intros Hn. unfold unsubscribe. by rewrite find_id_None. Qed.

Lemma unsubscribe_present (h : simplehub) (n : Z) :
  n ∈ id <$> subscribers h →
  ∃ l1 s l2, subscribers h = l1 ++ s :: l2 ∧ id s = n ∧ (n ∉ id <$> l1) ∧
    unsubscribe h n = ({| subscribers := l1 ++ l2; idx := idx h |}, [s]).
Proof.
  intros Hn. destruct (find_id_Some 0 _ _ Hn) as (l1 & s & l2 & Hl & Hid & Hl1 & Hf).
  exists l1, s, l2. repeat split; try done.
  unfold unsubscribe. rewrite Hf, Hl. simpl.
  rewrite take_app_length.
  rewrite (cons_middle s l1 l2), app_assoc.
  rewrite drop_app_length' by (rewrite length_app; simpl; lia).
  reflexivity.
Qed.

(** C7. For every hub and unsubscribe token: when the token's id is not
    in the registry (as at a second call), Unsubscribe changes neither
    the registry nor the counter and closes no subscriber; when it is,
    Unsubscribe closes and removes the first subscriber with that id and
    nothing else, the others keeping their order and the counter its
    value; so in a registry with distinct ids a second call with the
    same token does nothing. *)
Theorem unsubscribe_twice_is_noop (h : simplehub) (hd : handle) :
  (handle_id hd ∉ (id <$> subscribers h) → Unsubscribe h hd = (h, [])) ∧
  (handle_id hd ∈ (id <$> subscribers h) →
     ∃ l1 s l2, subscribers h = l1 ++ s :: l2 ∧ id s = handle_id hd ∧
       (handle_id hd ∉ id <$> l1) ∧
       Unsubscribe h hd = ({| subscribers := l1 ++ l2; idx := idx h |}, [s])) ∧
  (NoDup (id <$> subscribers h) →
     Unsubscribe (fst (Unsubscribe h hd)) hd = (fst (Unsubscribe h hd), [])).
Proof.
  unfold Unsubscribe. destruct hd as [n]. simpl.
  split; [apply unsubscribe_absent|]. split; [apply unsubscribe_present|].
  intros Hnd.
  destruct (decide (n ∈ id <$> subscribers h)) as [Hin|Hout].
  - destruct (unsubscribe_present h n Hin) as (l1 & s & l2 & Hl & Hid & Hl1 & ->).
    simpl. apply unsubscribe_absent. simpl.
    rewrite Hl, fmap_app, fmap_cons, Hid in Hnd.
    apply NoDup_app in Hnd as (_ & Hdisj & Hnd2).
    apply NoDup_cons in Hnd2 as [Hn2 _].
    rewrite fmap_app, elem_of_app. tauto.
  - rewrite (unsubscribe_absent h n Hout). simpl.
    by apply unsubscribe_absent.
Qed.

Lemma unsubscribe_idx (h : simplehub) (n : Z) : idx (fst (unsubscribe h n)) = idx h.
Proof.
  unfold unsubscribe. destruct (find_id 0 (subscribers h) n) as [[i s]|]; done.
Qed.

(** *** The ids Subscribe assigns *)

Lemma exec_cases (h : simplehub) (o : op) :
  (snd (exec h o) = [] ∧ idx (fst (exec h o)) = idx h) ∨
  (snd (exec h o) = [idx h] ∧ idx (fst (exec h o)) = wrap (idx h + 1)).
Proof.
  destruct o as [t hd | n | t data]; simpl.
  - unfold Subscribe. destruct (newSubscriber t hd); simpl; [left|right]; done.
  - left. split; [done | apply unsubscribe_idx].
  - left; done.
Qed.

Lemma run_cons (o : op) (rest : list op) (h : simplehub) :
  run (o :: rest) h =
  (fst (run rest (fst (exec h o))), snd (exec h o) ++ snd (run rest (fst (exec h o)))).
Proof.
  simpl. destruct (exec h o) as [h1 a1]. simpl.
  destruct (run rest h1) as [h2 a2]. reflexivity.
Qed.

Lemma run_app (ops1 ops2 : list op) (h : simplehub) :
  run (ops1 ++ ops2) h =
  (fst (run ops2 (fst (run ops1 h))), snd (run ops1 h) ++ snd (run ops2 (fst (run ops1 h)))).
Proof.
  revert h. induction ops1 as [|o ops1 IH]; intros h.
  - simpl. by destruct (run ops2 h).
  - rewrite <- app_comm_cons, !run_cons, IH. simpl. by rewrite app_assoc.
Qed.

Lemma run_ids (ops : list op) (h : simplehub) :
  0 ≤ idx h →
  idx h + Z.of_nat (length (snd (run ops h))) ≤ 2 ^ 63 →
  snd (run ops h) = seqZ (idx h) (Z.of_nat (length (snd (run ops h)))).
Proof.
  revert h. induction ops as [|o rest IH]; intros h Hpos Hlen.
  - simpl. by rewrite seqZ_nil.
  - rewrite run_cons in *. simpl in *.
    destruct (exec_cases h o) as [[Ha Hi] | [Ha Hi]]; rewrite Ha in *; simpl in *.
    + rewrite <- Hi. apply IH; rewrite Hi; done.
    + set (a2 := snd (run rest (fst (exec h o)))) in *.
      rewrite seqZ_cons by lia.
      replace (Z.pred (Z.of_nat (S (length a2)))) with (Z.of_nat (length a2)) by lia.
      f_equal.
      destruct (decide (length a2 = 0%nat)) as [Hz|Hnz].
      * rewrite Hz. apply length_zero_iff_nil in Hz. rewrite Hz. by rewrite seqZ_nil.
      * assert (Hidx : idx (fst (exec h o)) = Z.succ (idx h)).
        { rewrite Hi. rewrite wrap_small; unfold int_min, int_max; lia. }
        rewrite <- Hidx. subst a2. apply IH; rewrite Hidx; lia.
Qed.

(** C8, as the counter allows.  Over every sequence of Subscribe,
    Unsubscribe and Publish operations on a new hub in which at most
    2^63 Subscribes succeed: the ids assigned are 0, 1, 2, ... in the
    order of the Subscribes, each strictly greater than every id
    assigned before it, so no two subscriptions registered share an id,
    whatever was removed in between. *)
Theorem ids_increase_until_wrap (ops : list op) :
  Z.of_nat (length (assigned ops)) ≤ 2 ^ 63 →
  assigned ops = seqZ 0 (Z.of_nat (length (assigned ops))) ∧
  StronglySorted Z.lt (assigned ops) ∧
  NoDup (assigned ops).
Proof.
  intros Hlen.
  assert (Hids : assigned ops = seqZ 0 (Z.of_nat (length (assigned ops)))).
  { unfold assigned in *. apply (run_ids ops NewSimpleHub); simpl; lia. }
  split; [exact Hids|].
  assert (Hs : StronglySorted Z.lt (assigned ops)).
  { rewrite Hids. apply seqZ_sorted. }
  split; [exact Hs | by apply sorted_lt_NoDup].
Qed.

(** While the counter has not wrapped, the ids in the registry are
    increasing, so distinct, and below the counter. *)
Lemma exec_registry (h : simplehub) (o : op) :
  snd (exec h o) = [] ∨ idx h < int_max →
  0 ≤ idx h →
  StronglySorted Z.lt (id <$> subscribers h) →
  Forall (λ i, i < idx h) (id <$> subscribers h) →
  StronglySorted Z.lt (id <$> subscribers (fst (exec h o))) ∧
  Forall (λ i, i < idx (fst (exec h o))) (id <$> subscribers (fst (exec h o))).
Proof.
  intros Hmax Hpos Hs Hlt. destruct o as [t hd | n | t data]; simpl in *.
  - unfold Subscribe in *.
    destruct (newSubscriber t hd) as [e|sub]; simpl in *; [done|].
    destruct Hmax as [|Hmax]; [done|].
    rewrite wrap_small by (unfold int_min, int_max in *; lia).
    rewrite fmap_app. simpl. split.
    + apply StronglySorted_app. split; [|split; [done | repeat constructor]].
      intros x1 x2 Hx1 ->%list_elem_of_singleton.
      rewrite Forall_forall in Hlt. by apply Hlt.
    + apply Forall_app. split.
      * eapply Forall_impl; [exact Hlt|]. simpl. lia.
      * constructor; [lia | constructor].
  - destruct (decide (n ∈ id <$> subscribers h)) as [Hin|Hout].
    + destruct (unsubscribe_present h n Hin) as (l1 & s & l2 & Hl & _ & _ & ->).
      simpl. rewrite Hl in Hs, Hlt.
      rewrite fmap_app, fmap_cons in Hs, Hlt. rewrite fmap_app.
      apply StronglySorted_app in Hs as (Hcross & Hs1 & Hs2).
      apply StronglySorted_inv in Hs2 as [Hs2 _].
      apply Forall_app in Hlt as [Hlt1 Hlt2].
      apply Forall_cons in Hlt2 as [_ Hlt2]. split.
      * apply StronglySorted_app. split; [|done].
        intros x1 x2 Hx1 Hx2. apply Hcross; [done|]. rewrite elem_of_cons; by right.
      * apply Forall_app. done.
    + rewrite (unsubscribe_absent h n Hout). done.
  - done.
Qed.

Lemma run_registry (ops : list op) (h : simplehub) :
  0 ≤ idx h →
  idx h + Z.of_nat (length (snd (run ops h))) ≤ int_max →
  StronglySorted Z.lt (id <$> subscribers h) →
  Forall (λ i, i < idx h) (id <$> subscribers h) →
  StronglySorted Z.lt (id <$> subscribers (fst (run ops h))) ∧
  Forall (λ i, i < idx (fst (run ops h))) (id <$> subscribers (fst (run ops h))).
Proof.
  revert h. induction ops as [|o rest IH]; intros h Hpos Hlen Hs Hlt.
  - done.
  - rewrite run_cons in *. simpl in *. rewrite length_app in Hlen.
    destruct (exec_cases h o) as [[Ha Hi] | [Ha Hi]]; rewrite Ha in Hlen;
      simpl in Hlen.
    + destruct (exec_registry h o) as [Hs1 Hlt1]; try done; [by left|].
      apply IH; try done; rewrite Hi; lia.
    + destruct (exec_registry h o) as [Hs1 Hlt1]; try done; [right; lia|].
      rewrite wrap_small in Hi by (unfold int_min, int_max in *; lia).
      apply IH; try done; rewrite Hi; lia.
Qed.

(** So in a hub that has seen fewer than 2^63 Subscribes no two
    subscribers share an id. *)
Lemma registry_ids_distinct (ops : list op) :
  Z.of_nat (length (assigned ops)) ≤ int_max →
  NoDup (id <$> subscribers (fst (run ops NewSimpleHub))).
Proof.
  intros Hlen. apply sorted_lt_NoDup. unfold assigned in Hlen.
  apply (run_registry ops NewSimpleHub); simpl; try done;
    first [lia | constructor].
Qed.

(** [n] Subscribes that succeed, from a counter that does not wrap. *)
Lemma run_subscribes (t : string) (hd : handlerfn) (re : regexp) (n : nat) (h : simplehub) :
  Compile t = inr re → callable hd = true →
  idx h + Z.of_nat n ≤ int_max → int_min ≤ idx h →
  snd (run (replicate n (OpSubscribe t hd)) h) = seqZ (idx h) (Z.of_nat n) ∧
  idx (fst (run (replicate n (OpSubscribe t hd)) h)) = idx h + Z.of_nat n.
Proof.
  intros Hc Hcall. revert h. induction n as [|n IH]; intros h Hmax Hmin.
  - simpl. rewrite seqZ_nil by lia. split; [done | lia].
  - rewrite replicate_S, run_cons.
    assert (Hex : exec h (OpSubscribe t hd) =
              ({| subscribers := subscribers h ++ [{| id := idx h; topic := re; handler := hd |}];
                  idx := wrap (idx h + 1) |}, [idx h])).
    { simpl. unfold Subscribe, newSubscriber. rewrite Hc, Hcall. reflexivity. }
    rewrite Hex. simpl fst. simpl snd.
    rewrite wrap_small by (unfold int_max, int_min in *; lia).
    match goal with |- context [run _ ?h1] => destruct (IH h1) as [Hids Hidx] end;
      simpl; try lia.
    simpl in Hids, Hidx. rewrite Hids, Hidx.
    split; [|lia].
    rewrite (seqZ_cons (idx h)) by lia.
    do 2 f_equal; lia.
Qed.

Lemma run_subscribes_at_max (t : string) (hd : handlerfn) (re : regexp) (h : simplehub) :
  Compile t = inr re → callable hd = true → idx h = int_max →
  snd (run [OpSubscribe t hd; OpSubscribe t hd] h) = [int_max; int_min].
Proof.
  intros Hc Hcall Hidx. simpl. unfold Subscribe, newSubscriber.
  rewrite Hc, Hcall. simpl.
  rewrite Hidx. reflexivity.
Qed.

End simplehub_facts.

Lemma many_Z : Z.of_nat many = int_max.
Proof. unfold many. apply Z2Nat.id. unfold int_max. lia. Qed.

(** C8 as it is stated fails when the counter wraps: after 2^63
    Subscribes on a new hub the ids 0 .. 2^63 - 1 are in use and the
    next Subscribe assigns -2^63, which is smaller than all of them. *)
Lemma ids_wrap_after_max :
  assigned (replicate many (OpSubscribe "a" plain_handler)
            ++ [OpSubscribe "a" plain_handler; OpSubscribe "a" plain_handler])
  = seqZ 0 int_max ++ [int_max; int_min] ∧
  ¬ StronglySorted Z.lt
      (assigned (replicate many (OpSubscribe "a" plain_handler)
                 ++ [OpSubscribe "a" plain_handler; OpSubscribe "a" plain_handler])).
Proof.
  assert (Heq : assigned (replicate many (OpSubscribe "a" plain_handler)
            ++ [OpSubscribe "a" plain_handler; OpSubscribe "a" plain_handler])
          = seqZ 0 int_max ++ [int_max; int_min]).
  { unfold assigned. rewrite run_app. cbn [snd].
    pose proof many_Z as HZ.
    assert (Hmax : idx NewSimpleHub + Z.of_nat many ≤ int_max).
    { change (idx NewSimpleHub) with 0. lia. }
    assert (Hmin : int_min ≤ idx NewSimpleHub).
    { change (idx NewSimpleHub) with 0. unfold int_min. lia. }
    destruct (@run_subscribes LiteralRegexp "a" plain_handler "a" many
                NewSimpleHub eq_refl eq_refl Hmax Hmin) as [Hids Hidx].
    clear Hmax Hmin.
    change (idx NewSimpleHub) with 0 in Hids, Hidx.
    rewrite HZ in Hids, Hidx. rewrite Z.add_0_l in Hidx.
    rewrite Hids.
    rewrite (@run_subscribes_at_max LiteralRegexp "a" plain_handler "a" _
               eq_refl eq_refl Hidx).
    reflexivity. }
  split; [exact Heq|].
  rewrite Heq. intros Hs.
  apply StronglySorted_app_1_r in Hs.
  apply StronglySorted_inv in Hs as [_ Hall].
  apply Forall_cons in Hall as [Hlt _].
  unfold int_max, int_min in Hlt. lia.
Qed.

(** ** Assignability and reflect's Call *)

Lemma identical_refl (t : reflect.Type_) : reflect.identical t t = true.
Proof.
  revert t. fix IH 1.
  intros [| | | | |n|n|n ms|n fs|ins outs]; simpl; try done;
    rewrite ?bool_decide_eq_true_2 by done; try done; simpl.
  - revert fs. fix IHfs 1. intros [|[k t] fs]; [done|]. simpl.
    rewrite bool_decide_eq_true_2 by done. rewrite IH. simpl. apply IHfs.
  - assert (Hall : ∀ ts,
      (fix all (ts us : list reflect.Type_) : bool :=
         match ts, us with
         | [], [] => true
         | t :: ts', u :: us' => reflect.identical t u && all ts' us'
         | _, _ => false
         end) ts ts = true).
    { fix IHts 1. intros [|t ts]; [done|]. simpl. rewrite IH. simpl. apply IHts. }
    by rewrite !Hall.
Qed.

Lemma AssignableTo_refl (t : reflect.Type_) : reflect.AssignableTo t t = true.
Proof. unfold reflect.AssignableTo. by rewrite identical_refl. Qed.

Lemma AssignableTo_mapType_spec (t : reflect.Type_) :
  reflect.AssignableTo t reflect.mapType = reflect.AssignableTo_mapType t.
Proof.
  destruct t; try reflexivity.
  unfold reflect.AssignableTo. simpl. rewrite orb_true_r. reflexivity.
Qed.


Lemma AssignableTo_error (a3 : reflect.Type_) :
  reflect.kind a3 = reflect.Interface →
  reflect.AssignableTo reflect.errorType a3 = true ↔
  ∀ m, m ∈ reflect.methods a3 → m = "Error() string".
Proof.
  intros Hk. destruct a3 as [| | | | | | |n ms| |]; try discriminate Hk. clear Hk.
  assert (Hf : forallb (λ m, bool_decide (m ∈ ["Error() string"])) ms = true
               ↔ ∀ m, m ∈ ms → m = "Error() string").
  { induction ms as [|m0 ms IHms]; simpl.
    - split; [|done]. intros _ m Hm. by apply elem_of_nil in Hm.
    - rewrite andb_true_iff, bool_decide_eq_true, list_elem_of_singleton, IHms.
      split.
      + intros [-> Hall] m [->|Hm]%elem_of_cons; [done|by apply Hall].
      + intros Hall. split; [apply Hall; left|intros m Hm; apply Hall; by right]. }
  unfold reflect.AssignableTo, reflect.errorType.
  cbn [reflect.implements reflect.methods]. rewrite <- Hf.
  split; [|intros ->; by rewrite orb_true_r].
  intros Ha. apply orb_true_iff in Ha as [Ha|Ha]; [|exact Ha].
  assert (Hms : ms = ["Error() string"]).
  { simpl in Ha.
    destruct (bool_decide (["Error() string"] = ms)) eqn:Hd;
      [by apply bool_decide_eq_true in Hd|].
    rewrite ?andb_false_r in Ha. discriminate Ha. }
  subst ms. reflexivity.
Qed.

(** [Call] on a function of three parameters, with the arguments of the
    closure [deserialize] for the data type of the second parameter. *)
Lemma Call_handler (a1 rt a3 : reflect.Type_) (outs : list reflect.Type_)
    (fid : option nat) :
  Call (VFunc [a1; rt; a3] outs fid) [reflect.TString; rt; reflect.errorType] =
    match fid with
    | None => Panic "reflect: call of nil function"
    | Some _ =>
        if reflect.AssignableTo reflect.TString a1
           && reflect.AssignableTo reflect.errorType a3
        then Ok ()
        else Panic "reflect: Call using an argument as a type it is not assignable to"
    end.
Proof.
  destruct fid as [n|]; [|reflexivity].
  unfold Call. cbn [length zip zip_with forallb fst snd bool_decide].
  rewrite !bool_decide_eq_false_2 by lia.
  cbn [forallb zip zip_with fst snd]. rewrite AssignableTo_refl.
  by rewrite andb_true_r.
Qed.

(** ** The structured hub *)

Section structuredHub_facts.
Context `{Regexp} `{Json}.

(** *** Canonicalisation and the merge of the annotations *)

Lemma toStringMap_map (σ : heap) (r : option loc) :
  toStringMap σ (VMap "" r) = Ok (σ, r).
Proof. reflexivity. Qed.

Lemma toStringMap_named_map (σ : heap) (name : string) (r : option loc) :
  name ≠ "" →
  toStringMap σ (VMap name r) =
  Err (Errorf "%T assignable to map[string]interface{} but isn't one?").
Proof. intros Hn. destruct name; [done | reflexivity]. Qed.

Lemma merge_nil_map (kvs : list (string * value)) (σ : heap) :
  merge kvs σ None =
  match kvs with
  | [] => Ok σ
  | _ :: _ => Panic "assignment to entry in nil map"
  end.
Proof. destruct kvs as [|[k v] rest]; reflexivity. Qed.

Lemma merge_map (kvs : list (string * value)) (σ : heap) (l : loc) :
  ∃ σ', merge kvs σ (Some l) = Ok σ' ∧
    map_read σ' (Some l) = map_read σ (Some l) ∪ list_to_map kvs ∧
    ∀ l', l' ≠ l → σ' !! l' = σ !! l'.
Proof.
  revert σ. induction kvs as [|[k v] rest IH]; intros σ; cbn [merge].
  - exists σ. split; [done|]. split; [|done].
    rewrite list_to_map_nil. by rewrite (right_id ∅ (∪)).
  - rewrite list_to_map_cons.
    destruct (map_read σ (Some l) !! k) as [v0|] eqn:Hk.
    + destruct (IH σ) as (σ' & Hm & Hr & Hf).
      exists σ'. split; [exact Hm|]. split; [|exact Hf].
      rewrite Hr. apply map_eq. intros k'.
      rewrite !lookup_union. destruct (decide (k = k')) as [<-|Hne].
      * rewrite Hk, lookup_insert_eq. by destruct (list_to_map rest !! k).
      * by rewrite lookup_insert_ne.
    + cbn [map_assign].
      destruct (IH (<[l := <[k := v]> (map_read σ (Some l))]> σ))
        as (σ' & Hm & Hr & Hf).
      exists σ'. split; [exact Hm|]. split.
      * rewrite Hr. unfold map_read at 1. rewrite lookup_insert_eq. simpl.
        rewrite <- insert_union_l. by rewrite insert_union_r.
      * intros l' Hne. rewrite Hf by done. by rewrite lookup_insert_ne.
Qed.

(** The order in which the range yields the annotations does not
    matter. *)
Lemma merge_any_order (kvs : list (string * value)) (ann : entries)
    (σ : heap) (asMap : option loc) :
  kvs ≡ₚ map_to_list ann →
  match asMap with
  | Some l =>
      ∃ σ', merge kvs σ asMap = Ok σ' ∧
        map_read σ' asMap = map_read σ asMap ∪ ann ∧
        ∀ l', l' ≠ l → σ' !! l' = σ !! l'
  | None =>
      merge kvs σ asMap =
      if decide (ann = ∅) then Ok σ else Panic "assignment to entry in nil map"
  end.
Proof.
  intros Hperm. destruct asMap as [l|].
  - destruct (merge_map kvs σ l) as (σ' & Hm & Hr & Hf).
    exists σ'. split; [exact Hm|]. split; [|exact Hf].
    rewrite Hr. f_equal.
    rewrite <- (list_to_map_to_list ann). symmetry.
    apply list_to_map_proper; [apply NoDup_fst_map_to_list | by symmetry].
  - rewrite merge_nil_map. case_decide as He.
    + subst ann. rewrite map_to_list_empty in Hperm.
      by apply Permutation_nil_r in Hperm as ->.
    + destruct kvs as [|kv kvs]; [|done].
      symmetry in Hperm. apply Permutation_nil_r in Hperm.
      by apply map_to_list_empty_iff in Hperm.
Qed.

(** What Publish does once the payload is canonical: on a map object it
    merges and delegates; on the nil map it delegates when there is no
    annotation and panics at the first assignment otherwise. *)
Lemma publish_canonical (σ σ1 : heap) (h : structuredHub) (t : string)
    (data : value) (r : option loc) :
  toStringMap σ data = Ok (σ1, r) →
  match r with
  | Some l =>
      ∃ σ2 fl, structured_Publish σ h t data = Ok (σ2, fl) ∧
        Publish (hub h) t (VMap "" (Some l)) = Ok fl ∧
        map_read σ2 (Some l) = map_read σ1 (Some l) ∪ map_read σ1 (annotations h) ∧
        ∀ l', l' ≠ l → σ2 !! l' = σ1 !! l'
  | None =>
      if decide (map_read σ1 (annotations h) = ∅) then
        ∃ fl, structured_Publish σ h t data = Ok (σ1, fl) ∧
          Publish (hub h) t (VMap "" None) = Ok fl
      else
        structured_Publish σ h t data = Panic "assignment to entry in nil map"
  end.
Proof.
  intros Hc. unfold structured_Publish. rewrite Hc.
  destruct r as [l|].
  - destruct (merge_map (map_to_list (map_read σ1 (annotations h))) σ1 l)
      as (σ2 & -> & Hr & Hf).
    rewrite list_to_map_to_list in Hr.
    eexists σ2, _. repeat split; done.
  - rewrite merge_nil_map. case_decide as He.
    + rewrite He, map_to_list_empty. eexists; split; reflexivity.
    + destruct (map_to_list (map_read σ1 (annotations h))) eqn:Hl; [|done].
      apply map_to_list_empty_iff in Hl. done.
Qed.

(** C9. When the data given to the structured hub's Publish is a map
    object of type [map[string]interface{}], Publish delegates that same
    object to the simple hub and writes the annotation defaults the
    caller's map lacks into it: after the call the caller's map holds
    its own entries and, for every other key of the annotations, the
    default; no other map is written. *)
Theorem publish_writes_into_callers_map
    (σ : heap) (h : structuredHub) (t : string) (l : loc) :
  ∃ σ' fl, structured_Publish σ h t (VMap "" (Some l)) = Ok (σ', fl) ∧
    Publish (hub h) t (VMap "" (Some l)) = Ok fl ∧
    fl_data fl = VMap "" (Some l) ∧
    map_read σ' (Some l) = map_read σ (Some l) ∪ map_read σ (annotations h) ∧
    (∀ k v, map_read σ (annotations h) !! k = Some v →
            map_read σ (Some l) !! k = None →
            map_read σ' (Some l) !! k = Some v) ∧
    (∀ k v, map_read σ (Some l) !! k = Some v →
            map_read σ' (Some l) !! k = Some v) ∧
    (∀ l', l' ≠ l → σ' !! l' = σ !! l').
Proof.
  destruct (publish_canonical σ σ h t _ _ (toStringMap_map σ (Some l)))
    as (σ' & fl & Hp & Hd & Hr & Hf).
  exists σ', fl. split; [exact Hp|]. split; [exact Hd|].
  split.
  { destruct (Publish_spec (hub h) t (VMap "" (Some l)))
      as (fl0 & Hp0 & _ & Hdata & _).
    rewrite Hd in Hp0. by injection Hp0 as ->. }
  split; [exact Hr|].
  split; [|split; [|exact Hf]].
  - intros k v Ha Hm. rewrite Hr, lookup_union_r; done.
  - intros k v Hm. rewrite Hr. by apply lookup_union_Some_l.
Qed.

(** *** Errors and panics of Publish *)

Lemma toStringMap_Err_inv (σ : heap) (data : value) (e : error) :
  toStringMap σ data = Err e →
  (∃ name r, data = VMap name r ∧ name ≠ "" ∧
     e = Errorf "%T assignable to map[string]interface{} but isn't one?") ∨
  (∃ err, Marshal σ data = inl err ∧ e = Annotate err "json marshalling") ∨
  (∃ bs err, Marshal σ data = inr bs ∧
     (Unmarshal σ bs reflect.mapType (VMap "" None)).2 = Some err ∧
     e = Annotate err "json unmarshalling").
Proof.
  unfold toStringMap. intros He.
  destruct (TypeOf data) as [ty|] eqn:Hty; [|done].
  destruct (reflect.AssignableTo_mapType ty) eqn:Ha.
  - left. destruct data as [| | | | | |name r| |];
      try (simpl in Hty; simplify_eq; simpl in Ha; done).
    destruct name as [|c name]; [done|]. injection He as <-.
    exists (String c name), r. done.
  - right. destruct (Marshal σ data) as [err|bs] eqn:Hm.
    + left. injection He as <-. eauto.
    + right. destruct (Unmarshal σ bs reflect.mapType (VMap "" None))
        as [[σ' v] [err|]] eqn:Hu; [|done].
      injection He as <-. exists bs, err. by rewrite Hu.
Qed.

(** C6. When the data of a structured Publish cannot be canonicalised,
    that is when [toStringMap] returns an error, Publish returns that
    error, traced, and no handle: the simple hub's Publish is not
    reached, so no closure is handed to any subscriber, and neither the
    hub nor a map is changed. *)
Theorem publish_aborts_on_canonicalization_error
    (σ : heap) (h : structuredHub) (t : string) (data : value) (e : error) :
  toStringMap σ data = Err e →
  structured_Publish σ h t data = Err (Trace e) ∧
  ∀ σ' fl, structured_Publish σ h t data ≠ Ok (σ', fl).
Proof.
  intros He. unfold structured_Publish. rewrite He. split; [reflexivity | done].
Qed.

(** C10. Publish with nil data on the structured hub: [toStringMap]
    calls [AssignableTo] on the nil [reflect.Type] of nil and panics; no
    error is returned, marshalling or other, and nothing is delegated. *)
Theorem publish_nil_data_panics (σ : heap) (h : structuredHub) (t : string) :
  toStringMap σ VNil = Panic "invalid memory address or nil pointer dereference" ∧
  structured_Publish σ h t VNil
    = Panic "invalid memory address or nil pointer dereference" ∧
  (∀ e, structured_Publish σ h t VNil ≠ Err e) ∧
  (∀ σ' fl, structured_Publish σ h t VNil ≠ Ok (σ', fl)).
Proof. repeat split; done. Qed.

(** *** Subscribe *)

Lemma structured_Subscribe_invalid (h : structuredHub) (t : string)
    (handler : value) (e : error) :
  checkHandler handler = Err e →
  structured_Subscribe h t handler = (Err (Trace e), h).
Proof. intros He. unfold structured_Subscribe. by rewrite He. Qed.

(** A hub without subscribers hands no closure to anyone. *)
Lemma publish_no_subscribers (σ : heap) (h : structuredHub) (t : string)
    (data : value) (σ' : heap) (fl : flight) :
  subscribers (hub h) = [] →
  structured_Publish σ h t data = Ok (σ', fl) →
  notified fl = [] ∧ calls fl = [].
Proof.
  intros Hs. unfold structured_Publish.
  destruct (toStringMap σ data) as [[σ1 r]| |]; try done.
  destruct (merge _ _ _); try done.
  unfold Publish. rewrite Hs. simpl. intros [= _ <-]. done.
Qed.

(** C5, at the handler nil: [checkHandler] calls [Kind] on the nil
    [reflect.Type] and panics, so Subscribe returns no invalid-handler
    error; the hub is as it was. *)
Theorem subscribe_nil_handler_panics (h : structuredHub) (t : string) :
  checkHandler VNil = Panic "invalid memory address or nil pointer dereference" ∧
  structured_Subscribe h t VNil
    = (Panic "invalid memory address or nil pointer dereference", h).
Proof. split; reflexivity. Qed.

End structuredHub_facts.

(** *** The shape checkHandler accepts *)

Lemma is_mapType_spec (t : reflect.Type_) :
  reflect.is_mapType t = true ↔ t = reflect.mapType.
Proof.
  destruct t; simpl; try (split; discriminate).
  rewrite bool_decide_eq_true. unfold reflect.mapType. split; congruence.
Qed.

Lemma checkHandler_Ok_iff (handler : value) (rt : reflect.Type_) :
  checkHandler handler = Ok rt ↔
  ∃ a1 a3 fid, handler = VFunc [a1; rt; a3] [] fid ∧
    reflect.kind a1 = reflect.String ∧
    (reflect.kind rt = reflect.Struct ∨ rt = reflect.mapType) ∧
    reflect.kind a3 = reflect.Interface ∧ reflect.Name a3 = "error".
Proof.
  split.
  - unfold checkHandler. intros Hc.
    destruct handler as [| | | | | | | |ins outs fid]; simpl in Hc;
      try discriminate.
    destruct ins as [|a1 [|a2 [|a3 [|a4 ins]]]]; try discriminate;
      destruct outs as [|o outs]; try discriminate.
    simpl in Hc.
    repeat case_bool_decide; simpl in Hc;
      try (destruct (reflect.is_mapType a2) eqn:Hm; simpl in Hc);
      try discriminate; injection Hc as <-;
      exists a1, a3, fid.
    all: try apply is_mapType_spec in Hm.
    all: repeat split; try done; auto.
  - intros (a1 & a3 & fid & -> & H1 & H2 & H3 & H4).
    unfold checkHandler. simpl. rewrite H1, H3, H4.
    rewrite !bool_decide_eq_false_2 by (intros Hne; by apply Hne). simpl.
    destruct H2 as [H2| ->].
    + rewrite H2. rewrite bool_decide_eq_false_2 by (intros Hne; by apply Hne).
      reflexivity.
    + reflexivity.
Qed.

Lemma checkHandler_rejects (handler : value) :
  handler ≠ VNil →
  (∃ rt, checkHandler handler = Ok rt) ∨
  (∃ e, checkHandler handler = Err e ∧ IsNotValid e = true).
Proof.
  intros Hnil. unfold checkHandler.
  destruct (TypeOf handler) as [t|] eqn:Ht; [|by destruct handler].
  repeat (case_bool_decide || destruct (reflect.is_mapType _)); simpl;
    eauto.
Qed.

Lemma IsNotValid_Trace (e : error) : IsNotValid (Trace e) = IsNotValid e.
Proof. reflexivity. Qed.

(** Subscribe succeeds only for a handler of the shape. *)
Lemma structured_Subscribe_Ok_shape `{Regexp} (h h' : structuredHub) (t : string)
    (handler : value) (hd : handle) :
  structured_Subscribe h t handler = (Ok hd, h') →
  ∃ a1 rt a3 fid, handler = VFunc [a1; rt; a3] [] fid ∧
    reflect.kind a1 = reflect.String ∧
    (reflect.kind rt = reflect.Struct ∨ rt = reflect.mapType) ∧
    reflect.kind a3 = reflect.Interface ∧ reflect.Name a3 = "error".
Proof.
  unfold structured_Subscribe.
  destruct (checkHandler handler) as [rt| |] eqn:Hc; try discriminate.
  intros _. apply checkHandler_Ok_iff in Hc as (a1 & a3 & fid & Hh).
  exists a1, rt, a3, fid. exact Hh.
Qed.

(** A handler that is not nil and does not have the shape is refused
    with an invalid-handler error, and the hub is as it was. *)
Lemma structured_Subscribe_rejects `{Regexp} (h : structuredHub) (t : string)
    (handler : value) :
  handler ≠ VNil → (∀ rt, checkHandler handler ≠ Ok rt) →
  ∃ e, structured_Subscribe h t handler = (Err e, h) ∧ IsNotValid e = true.
Proof.
  intros Hnil Hno.
  destruct (checkHandler_rejects handler Hnil) as [[rt Hok]|(e & He & Hv)].
  - by destruct (Hno rt).
  - exists (Trace e). split; [|exact Hv].
    unfold structured_Subscribe. by rewrite He.
Qed.

(** *** The closure deserialize *)

Section deserialize_facts.
Context `{Json}.

(** The closure around a function that is not nil, whose first
    parameter is a [string] and whose third accepts an [error]: the call
    is made, with what the conversion gave. *)
Lemma deserialize_callable
    (rt a3 : reflect.Type_) (n : nat) (σ : heap) (t : string) (data : value) :
  reflect.AssignableTo reflect.errorType a3 = true →
  deserialize rt (VFunc [reflect.TString; rt; a3] [] (Some n)) σ t data =
    let '(σ', v, err) :=
      match data with
      | VMap EmptyString asMap => toHanderType σ rt asMap
      | _ => (σ, zero rt, Some (Errorf "bad publish data: %v"))
      end in
    Ok (σ', [CallStructured (VFunc [reflect.TString; rt; a3] [] (Some n)) t v err]).
Proof.
  intros Ha3. unfold deserialize. rewrite Call_handler, Ha3.
  by destruct (match data with VMap EmptyString _ => _ | _ => _ end) as [[σ' v] err].
Qed.



End deserialize_facts.

(** ** The examples *)

(** The scenario of the specification: annotations [{"app": "x"}], a
    subscriber for [foo.*] with a map-typed handler, and the caller's
    map [{"topic": "foo.bar", "value": 1}] published to [foo.bar].  The
    one subscriber is notified, and its handler is called with the
    caller's map, which now holds the three keys. *)
Example publish_scenario :
  ∃ σ' fl,
    structured_Publish example_heap example_hub "foo.bar" (VMap "" (Some 2%positive))
      = Ok (σ', fl) ∧
    queued fl = subscribers (hub example_hub) ∧
    map_read σ' (Some 2%positive)
      = {[ "topic" := VString "foo.bar"; "value" := VInt 1; "app" := VString "x" ]} ∧
    deserialize reflect.mapType map_handler σ' "foo.bar" (fl_data fl)
      = Ok (σ', [CallStructured map_handler "foo.bar" (VMap "" (Some 2%positive)) None]).
Proof.
  eexists _, _. split; [vm_compute; reflexivity|].
  repeat split; vm_compute; reflexivity.
Qed.

(** C3, at the nil map.  A nil [map[string]interface{}] canonicalises,
    to itself, without an error; the annotations hold ["app"], which the
    nil map lacks; and Publish panics at the assignment of the default
    instead of delegating a payload that maps ["app"] to it. *)
Theorem publish_nil_map_panics :
  toStringMap example_heap (VMap "" None) = Ok (example_heap, None) ∧
  map_read example_heap (annotations example_hub) !! "app" = Some (VString "x") ∧
  structured_Publish example_heap example_hub "foo.bar" (VMap "" None)
    = Panic "assignment to entry in nil map".
Proof. repeat split; vm_compute; reflexivity. Qed.


(** C4 as it is stated fails, too, for handlers that [checkHandler]
    accepts and [reflect.Value.Call] refuses: Subscribe registers a
    handler whose first parameter is of a defined string type, one whose
    third is of another interface type named [error], and the nil
    function; the closure of each panics on every notification, without
    a call of the handler. *)
Example deserialize_panics_for_accepted_handlers :
  Forall (λ f,
      checkHandler f = Ok Msg ∧
      (∃ hd h', structured_Subscribe (NewStructuredHub None) "foo.*" f = (Ok hd, h')) ∧
      ∃ m, deserialize Msg f example_heap "foo.bar" (VMap "" (Some 2%positive))
             = Panic m)
    [topic_handler; coded_handler; nil_handler].
Proof.
  repeat constructor; try (vm_compute; reflexivity);
    eexists; try eexists; vm_compute; reflexivity.
Qed.

(** ** Instances of the theorems that have a premise *)

Lemma publish_notifies_iff_match_witness :
  ∃ fl, Publish (hub example_hub) "foo.bar" VNil = Ok fl ∧
    notified fl = subscribers (hub example_hub).
Proof.
  destruct (publish_notifies_iff_match (hub example_hub) "foo.bar" VNil)
    as [(fl & Hp & Hn & _) _].
  exists fl. split; [exact Hp | exact Hn].
Defined.

Lemma completion_after_all_closures_witness :
  reachable (hub example_hub) "foo.bar" (VMap "" (Some 2%positive)) example_final ∧
  Complete example_final = true ∧
  ran example_final ≡ₚ matching "foo.bar" (subscribers (hub example_hub)).
Proof.
  assert (Hr : reachable (hub example_hub) "foo.bar" (VMap "" (Some 2%positive))
                 example_final).
  { unfold reachable.
    eapply rtc_l; [apply step_visit; [discriminate | reflexivity]|].
    eapply rtc_l; [apply step_spawn; reflexivity|].
    eapply rtc_l; [apply (step_begin 0); reflexivity|].
    eapply rtc_l; [apply (step_finish 0); reflexivity|].
    eapply rtc_l; [apply step_close; reflexivity|].
    apply rtc_refl. }
  split; [exact Hr|]. split; [reflexivity|].
  destruct (completion_after_all_closures _ _ _ _ Hr) as (_ & _ & Hdone & _).
  apply Hdone. reflexivity.
Defined.


Lemma publish_aborts_on_canonicalization_error_witness :
  toStringMap example_heap (VChan None)
    = Err (Annotate (unsupported "chan") "json marshalling") ∧
  structured_Publish example_heap example_hub "foo.bar" (VChan None)
    = Err (Trace (Annotate (unsupported "chan") "json marshalling")).
Proof.
  assert (He : toStringMap example_heap (VChan None)
                 = Err (Annotate (unsupported "chan") "json marshalling"))
    by reflexivity.
  split; [exact He|].
  apply (publish_aborts_on_canonicalization_error
           example_heap example_hub "foo.bar" (VChan None) _ He).
Defined.

Lemma unsubscribe_twice_is_noop_witness :
  NoDup (id <$> subscribers example_registry) ∧
  Unsubscribe (Unsubscribe example_registry {| handle_id := 0 |}).1 {| handle_id := 0 |}
    = ((Unsubscribe example_registry {| handle_id := 0 |}).1, []).
Proof.
  assert (Hnd : NoDup (id <$> subscribers example_registry)).
  { apply (bool_decide_unpack _). vm_compute. exact I. }
  split; [exact Hnd|].
  apply (unsubscribe_twice_is_noop example_registry {| handle_id := 0 |}).
  exact Hnd.
Defined.

Lemma ids_increase_until_wrap_witness :
  Z.of_nat (length (assigned example_ops)) ≤ 2 ^ 63 ∧
  assigned example_ops = [0; 1; 2] ∧
  StronglySorted Z.lt (assigned example_ops).
Proof.
  assert (Hlen : Z.of_nat (length (assigned example_ops)) ≤ 2 ^ 63).
  { vm_compute. discriminate. }
  split; [exact Hlen|]. split; [vm_compute; reflexivity|].
  apply (ids_increase_until_wrap example_ops Hlen).
Defined.

(** * Further properties of the simple hub *)

Section simplehub_more.
Context `{Regexp}.

(** ** Subscribe and Unsubscribe together *)

Lemma unsubscribe_drop_id (h : simplehub) (n : Z) :
  subscribers (unsubscribe h n).1 = drop_id n (subscribers h) ∧
  idx (unsubscribe h n).1 = idx h.
Proof.
  split; [|apply unsubscribe_idx].
  destruct (decide (n ∈ id <$> subscribers h)) as [Hin|Hout].
  - destruct (unsubscribe_present h n Hin) as (l1 & s & l2 & Hl & Hid & Hl1 & ->).
    simpl. rewrite Hl. clear Hl Hin.
    induction l1 as [|x l1 IH]; simpl.
    + by rewrite bool_decide_eq_true_2.
    + rewrite fmap_cons, not_elem_of_cons in Hl1. destruct Hl1 as [Hx Hl1].
      rewrite bool_decide_eq_false_2 by congruence. f_equal. by apply IH.
  - rewrite (unsubscribe_absent h n Hout). simpl.
    induction (subscribers h) as [|x l IH]; simpl; [done|].
    rewrite fmap_cons, not_elem_of_cons in Hout. destruct Hout as [Hx Hl].
    rewrite bool_decide_eq_false_2 by congruence. f_equal. by apply IH.
Qed.

Lemma drop_id_comm (n m : Z) (subs : list subscriber) :
  n ≠ m → drop_id m (drop_id n subs) = drop_id n (drop_id m subs).
Proof.
  intros Hne. induction subs as [|s subs IH]; simpl; [done|].
  destruct (decide (id s = n)) as [Hn|Hn], (decide (id s = m)) as [Hm|Hm].
  - congruence.
  - rewrite (bool_decide_eq_true_2 _ Hn), (bool_decide_eq_false_2 _ Hm). simpl.
    by rewrite (bool_decide_eq_true_2 _ Hn).
  - rewrite (bool_decide_eq_false_2 _ Hn), (bool_decide_eq_true_2 _ Hm). simpl.
    by rewrite (bool_decide_eq_true_2 _ Hm).
  - rewrite (bool_decide_eq_false_2 _ Hn), (bool_decide_eq_false_2 _ Hm). simpl.
    rewrite (bool_decide_eq_false_2 _ Hn), (bool_decide_eq_false_2 _ Hm).
    by rewrite IH.
Qed.

Lemma find_id_snoc_fresh (i : nat) (l : list subscriber) (s : subscriber) :
  id s ∉ (id <$> l) →
  find_id i (l ++ [s]) (id s) = Some ((i + length l)%nat, s).
Proof.
  revert i. induction l as [|x l IH]; intros i Hn; simpl.
  - rewrite bool_decide_eq_true_2 by done. by rewrite Nat.add_0_r.
  - rewrite fmap_cons, not_elem_of_cons in Hn. destruct Hn as [Hx Hl].
    rewrite bool_decide_eq_false_2 by congruence.
    rewrite (IH (S i) Hl). do 2 f_equal. lia.
Qed.

(** X1. Subscribe followed by Unsubscribe with the handle it returned,
    on a hub none of whose subscribers has the id the counter is at:
    the registry is again what it was before the Subscribe, the one
    subscriber closed is the one that was added, and the counter stays
    advanced, so the id is not given out again. *)
Theorem subscribe_unsubscribe_round_trip
    (h h1 : simplehub) (t : string) (hd : handlerfn) (hdl : handle) :
  Subscribe h t hd = (Ok hdl, h1) →
  idx h ∉ (id <$> subscribers h) →
  ∃ s, subscribers h1 = subscribers h ++ [s] ∧ id s = idx h ∧
    Unsubscribe h1 hdl
      = ({| subscribers := subscribers h; idx := wrap (idx h + 1) |}, [s]).
Proof.
  unfold Subscribe. intros Hs Hfresh.
  destruct (newSubscriber t hd) as [e|sub]; [done|].
  injection Hs as <- <-. eexists. split; [reflexivity|].
  split; [reflexivity|].
  unfold Unsubscribe, unsubscribe. simpl.
  set (s := {| id := idx h; topic := topic sub; handler := handler sub |}).
  pose proof (find_id_snoc_fresh 0 (subscribers h) s Hfresh) as Hf.
  simpl in Hf. rewrite Hf. simpl.
  rewrite take_app_length.
  replace (S (length (subscribers h))) with (length (subscribers h ++ [s]))
    by (rewrite length_app; simpl; lia).
  rewrite drop_all, app_nil_r. reflexivity.
Qed.

Lemma simplehub_eq (a b : simplehub) :
  subscribers a = subscribers b → idx a = idx b → a = b.
Proof. destruct a, b. simpl. by intros -> ->. Qed.

Lemma unsubscribe_closed (h : simplehub) (n : Z) :
  (unsubscribe h n).2 = take 1 (filter (λ s, id s = n) (subscribers h)).
Proof.
  destruct (decide (n ∈ id <$> subscribers h)) as [Hin|Hout].
  - destruct (unsubscribe_present h n Hin) as (l1 & s & l2 & -> & Hid & Hl1 & ->).
    simpl. rewrite filter_app, filter_cons_True by done.
    replace (filter (λ s0, id s0 = n) l1) with (@nil subscriber); [done|].
    symmetry. clear -Hl1. induction l1 as [|x l1 IH]; [done|].
    rewrite fmap_cons, not_elem_of_cons in Hl1. destruct Hl1 as [Hx Hl1].
    rewrite filter_cons_False by congruence. by apply IH.
  - rewrite (unsubscribe_absent h n Hout). simpl.
    replace (filter (λ s, id s = n) (subscribers h)) with (@nil subscriber); [done|].
    symmetry. induction (subscribers h) as [|x l IH]; [done|].
    rewrite fmap_cons, not_elem_of_cons in Hout. destruct Hout as [Hx Hl].
    rewrite filter_cons_False by congruence. by apply IH.
Qed.

Lemma filter_drop_id_ne (n m : Z) (subs : list subscriber) :
  n ≠ m →
  filter (λ s, id s = m) (drop_id n subs) = filter (λ s, id s = m) subs.
Proof.
  intros Hne. induction subs as [|s subs IH]; simpl; [done|].
  case_bool_decide as Hn.
  - rewrite filter_cons_False by congruence. done.
  - rewrite !filter_cons. rewrite IH. done.
Qed.

(** X2. Two Unsubscribes with different ids commute: in either order
    they leave the same hub (registry and counter) and close the same
    subscribers, each at its own call. *)
Theorem unsubscribe_commutes (h : simplehub) (n m : Z) :
  n ≠ m →
  (unsubscribe (unsubscribe h n).1 m).1 = (unsubscribe (unsubscribe h m).1 n).1 ∧
  (unsubscribe (unsubscribe h n).1 m).2 = (unsubscribe h m).2 ∧
  (unsubscribe (unsubscribe h m).1 n).2 = (unsubscribe h n).2.
Proof.
  intros Hne. split; [|split].
  - apply simplehub_eq.
    + destruct (unsubscribe_drop_id (unsubscribe h n).1 m) as [-> _].
      destruct (unsubscribe_drop_id (unsubscribe h m).1 n) as [-> _].
      destruct (unsubscribe_drop_id h n) as [-> _].
      destruct (unsubscribe_drop_id h m) as [-> _].
      by apply drop_id_comm.
    + by rewrite !unsubscribe_idx.
  - rewrite !unsubscribe_closed.
    destruct (unsubscribe_drop_id h n) as [-> _].
    by rewrite filter_drop_id_ne.
  - rewrite !unsubscribe_closed.
    destruct (unsubscribe_drop_id h m) as [-> _].
    by rewrite filter_drop_id_ne.
Qed.

(** ** Subscribe, Unsubscribe and the next Publish *)

Lemma drop_id_filter (n : Z) (subs : list subscriber) :
  NoDup (id <$> subs) → drop_id n subs = filter (λ s, id s ≠ n) subs.
Proof.
  induction subs as [|s subs IH]; [done|].
  rewrite fmap_cons, NoDup_cons. intros [Hs Hnd]. simpl.
  case_bool_decide as Hn.
  - rewrite filter_cons_False by (intros Hne; by apply Hne).
    subst n. clear IH Hnd. induction subs as [|x subs IH]; [done|].
    rewrite fmap_cons, not_elem_of_cons in Hs. destruct Hs as [Hx Hs].
    rewrite filter_cons_True by congruence. f_equal. by apply IH.
  - rewrite filter_cons_True by done. f_equal. by apply IH.
Qed.

(** X3. In a hub whose subscribers have distinct ids, a Publish after
    [unsubscribe] of an id notifies the subscribers the Publish would
    have notified before it, in the same order, except the one with that
    id: a subscriber that has been unsubscribed is handed no closure. *)
Theorem unsubscribed_is_not_notified
    (h : simplehub) (n : Z) (t : string) (data : value) :
  NoDup (id <$> subscribers h) →
  ∃ fl fl', Publish h t data = Ok fl ∧
    Publish (unsubscribe h n).1 t data = Ok fl' ∧
    notified fl' = filter (λ s, id s ≠ n) (notified fl) ∧
    ∀ s, s ∈ notified fl' → id s ≠ n.
Proof.
  intros Hnd.
  destruct (Publish_spec h t data)
    as (fl & Hp & _ & _ & _ & _ & Hq & Hrun & Hran & _).
  destruct (Publish_spec (unsubscribe h n).1 t data)
    as (fl' & Hp' & _ & _ & _ & _ & Hq' & Hrun' & Hran' & _).
  exists fl, fl'. split; [exact Hp|]. split; [exact Hp'|].
  assert (Heq : notified fl' = filter (λ s, id s ≠ n) (notified fl)).
  { unfold notified. rewrite Hq, Hrun, Hran, Hq', Hrun', Hran'. simpl.
    destruct (unsubscribe_drop_id h n) as [-> _].
    rewrite (drop_id_filter n _ Hnd). unfold matching.
    rewrite !list_filter_filter. apply list_filter_iff. tauto. }
  split; [exact Heq|].
  intros s Hs. rewrite Heq in Hs. by apply list_elem_of_filter in Hs as [? _].
Qed.

(** X4. After a Subscribe that succeeds, a Publish notifies the
    subscribers it would have notified before, in the same order, and
    after them the new subscriber, which has the id the counter was at,
    exactly when its pattern accepts the topic. *)
Theorem subscribed_is_notified_iff_match
    (h h1 : simplehub) (pat : string) (hd : handlerfn) (hdl : handle)
    (t : string) (data : value) :
  Subscribe h pat hd = (Ok hdl, h1) →
  ∃ s fl fl1, subscribers h1 = subscribers h ++ [s] ∧ id s = idx h ∧
    Publish h t data = Ok fl ∧ Publish h1 t data = Ok fl1 ∧
    notified fl1 = notified fl ++ (if MatchString (topic s) t then [s] else []).
Proof.
  unfold Subscribe. intros Hs.
  destruct (newSubscriber pat hd) as [e|sub]; [done|].
  injection Hs as <- <-.
  destruct (Publish_spec h t data)
    as (fl & Hp & _ & _ & _ & _ & Hq & Hrun & Hran & _).
  set (s := {| id := idx h; topic := topic sub; handler := handler sub |}).
  set (h1 := {| subscribers := subscribers h ++ [s]; idx := wrap (idx h + 1) |}).
  destruct (Publish_spec h1 t data)
    as (fl1 & Hp1 & _ & _ & _ & _ & Hq1 & Hrun1 & Hran1 & _).
  exists s, fl, fl1. split; [done|]. split; [done|].
  split; [exact Hp|]. split; [exact Hp1|].
  unfold notified. rewrite Hq, Hrun, Hran, Hq1, Hrun1, Hran1. simpl.
  unfold matching. rewrite filter_app. f_equal.
  rewrite filter_cons, filter_nil. unfold matchTopic. simpl.
  destruct (MatchString (topic sub) t); by case_decide.
Qed.

(** ** The registry over sequences of operations *)

Lemma run_idx (ops : list op) (h : simplehub) :
  0 ≤ idx h →
  idx h + Z.of_nat (length (run ops h).2) ≤ int_max →
  idx (run ops h).1 = idx h + Z.of_nat (length (run ops h).2).
Proof.
  revert h. induction ops as [|o rest IH]; intros h Hpos Hlen.
  - simpl. lia.
  - rewrite run_cons in *. simpl in *. rewrite length_app in *.
    destruct (exec_cases h o) as [[Ha Hi] | [Ha Hi]]; rewrite Ha in *;
      simpl in *.
    + rewrite IH; rewrite Hi; lia.
    + rewrite wrap_small in Hi by (unfold int_min, int_max in *; lia).
      rewrite IH; rewrite Hi; lia.
Qed.

Lemma elem_of_drop_id (n : Z) (subs : list subscriber) (s : subscriber) :
  s ∈ drop_id n subs → s ∈ subs.
Proof.
  induction subs as [|x subs IH]; simpl; [done|].
  case_bool_decide.
  - intros Hs. by apply list_elem_of_further.
  - rewrite !elem_of_cons. intros [->|Hs]; [by left | right; by apply IH].
Qed.

Lemma exec_ids (h : simplehub) (o : op) (i : Z) :
  i ∈ id <$> subscribers (exec h o).1 →
  i ∈ id <$> subscribers h ∨ i ∈ (exec h o).2.
Proof.
  destruct o as [t hd | n | t data]; simpl.
  - unfold Subscribe. destruct (newSubscriber t hd) as [e|sub]; simpl; [by left|].
    rewrite fmap_app, elem_of_app. simpl. tauto.
  - destruct (unsubscribe_drop_id h n) as [-> _].
    intros (s & -> & Hs)%list_elem_of_fmap. left.
    apply list_elem_of_fmap_2. by eapply elem_of_drop_id.
  - by left.
Qed.

Lemma run_ids_assigned (ops : list op) (h : simplehub) (i : Z) :
  i ∈ id <$> subscribers (run ops h).1 →
  i ∈ id <$> subscribers h ∨ i ∈ (run ops h).2.
Proof.
  revert h. induction ops as [|o rest IH]; intros h; [by left|].
  rewrite run_cons. simpl. intros Hi.
  destruct (IH _ Hi) as [Hin|Hin].
  - destruct (exec_ids h o i Hin) as [?|?]; [by left|].
    right. rewrite elem_of_app. by left.
  - right. rewrite elem_of_app. by right.
Qed.

(** X5. In the hub that a sequence of operations with fewer than 2^63
    successful Subscribes leaves: the subscribers stand in the registry
    in the order of their ids, which is the order in which they
    subscribed; the counter is the number of Subscribes that succeeded;
    and every id in the registry is one that a Subscribe of the sequence
    assigned, so it is below the counter. *)
Theorem registry_in_id_order (ops : list op) :
  Z.of_nat (length (assigned ops)) ≤ int_max →
  StronglySorted Z.lt (id <$> subscribers (run ops NewSimpleHub).1) ∧
  idx (run ops NewSimpleHub).1 = Z.of_nat (length (assigned ops)) ∧
  ∀ i, i ∈ id <$> subscribers (run ops NewSimpleHub).1 →
       i ∈ assigned ops ∧ 0 ≤ i < idx (run ops NewSimpleHub).1.
Proof.
  intros Hlen. unfold assigned in *.
  assert (Hreg : StronglySorted Z.lt (id <$> subscribers (run ops NewSimpleHub).1) ∧
            Forall (λ i, i < idx (run ops NewSimpleHub).1)
              (id <$> subscribers (run ops NewSimpleHub).1)).
  { apply run_registry; simpl; try done; first [lia | constructor]. }
  destruct Hreg as [Hs Hlt].
  assert (Hidx : idx (run ops NewSimpleHub).1
                 = Z.of_nat (length (run ops NewSimpleHub).2)).
  { rewrite run_idx; simpl; lia. }
  split; [exact Hs|]. split; [exact Hidx|].
  intros i Hi.
  destruct (run_ids_assigned ops NewSimpleHub i Hi) as [Hin|Hin];
    [by apply elem_of_nil in Hin|].
  split; [exact Hin|].
  rewrite Forall_forall in Hlt. split; [|by apply Hlt].
  pose proof (run_ids ops NewSimpleHub) as Hseq. simpl in Hseq.
  rewrite Hseq in Hin by (unfold int_max in *; lia).
  apply elem_of_seqZ in Hin. lia.
Qed.

(** ** The course of a publish *)

(** X6. In every state a publish can reach, each closure that has been
    handed over can take its next step: one that is queued can start
    (the range variable it reads is set), and for one that is running
    the deferred [wait.Done()] finds the counter above zero, so it never
    panics on a negative counter. *)
Theorem closures_can_proceed
    (h : simplehub) (t : string) (data : value) (fl : flight)
    (i : nat) (s : subscriber) :
  reachable h t data fl →
  (queued fl !! i = Some s → ∃ fl', begin i fl = Some fl') ∧
  (running fl !! i = Some s → ∃ fl', finish i fl = Some fl' ∧ wait fl = S (wait fl')).
Proof.
  intros Hr. apply reachable_inv in Hr.
  destruct Hr as [_ _ Hw _ _ _ _ _ _ Hlv]. split.
  - intros Hq. unfold begin. rewrite Hq.
    destruct Hlv as [cur ->]; [by intros Hnil; rewrite Hnil in Hq|]. eauto.
  - intros Hrun. unfold finish. rewrite Hrun.
    pose proof (lookup_lt_Some _ _ _ Hrun) as Hlt.
    destruct (wait fl) as [|n]; [lia|]. eexists. split; reflexivity.
Qed.

(** X7. A state a publish can reach has no step left exactly when the
    handle has resolved: the publish cannot get stuck before [done] is
    closed, and after it nothing more happens (no closure starts or
    finishes, no handler is called). *)
Theorem stuck_iff_resolved
    (h : simplehub) (t : string) (data : value) (fl : flight) :
  reachable h t data fl →
  ((∀ fl', ¬ step fl fl') ↔ Complete fl = true).
Proof.
  intros Hr. pose proof (reachable_inv _ _ _ _ Hr) as Hinv.
  destruct Hinv as [_ _ Hw Hret Hb Hwt Ha Hc _ Hlv]. split.
  - intros Hstuck. apply Complete_closes. intros Hz.
    destruct (todo fl) as [|x rest] eqn:Htodo.
    + destruct (returned fl) eqn:Hreturned.
      * destruct (queued fl) as [|q qs] eqn:Hq.
        -- destruct (running fl) as [|r rs] eqn:Hrun.
           ++ destruct (waiter fl) eqn:Hwa.
              ** eapply Hstuck. apply step_close. unfold close_done.
                 rewrite Hwa, Hw. reflexivity.
              ** specialize (Ha eq_refl eq_refl). congruence.
           ++ simpl in Hw. eapply Hstuck. apply (step_finish 0).
              unfold finish. rewrite Hrun, Hw. reflexivity.
        -- destruct Hlv as [cur Hcur]; [done|].
           eapply Hstuck. apply (step_begin 0). unfold begin.
           rewrite Hq, Hcur. reflexivity.
      * eapply Hstuck. by apply step_spawn.
    + eapply Hstuck. apply step_visit; [by rewrite Htodo|].
      destruct (returned fl); [by specialize (Hret eq_refl)|done].
  - intros Hdone%Complete_closes fl' Hstep.
    destruct (Hc Hdone) as [Hone Hz].
    assert (Hreturned : returned fl = true).
    { destruct (returned fl) eqn:E; [done|]. destruct (Hb eq_refl). congruence. }
    assert (Hwa : waiter fl = false).
    { destruct (waiter fl) eqn:E; [|done]. specialize (Hwt eq_refl). congruence. }
    rewrite Hz in Hw.
    assert (Hq : queued fl = []) by (apply length_zero_iff_nil; lia).
    assert (Hrun : running fl = []) by (apply length_zero_iff_nil; lia).
    destruct Hstep as [fl Htodo Hr' | fl Htodo Hr' | i fl fl' Hbeg
                      | i fl fl' Hfin | fl fl' Hcl].
    + congruence.
    + congruence.
    + unfold begin in Hbeg. by rewrite Hq in Hbeg.
    + unfold finish in Hfin. by rewrite Hrun in Hfin.
    + unfold close_done in Hcl. by rewrite Hwa in Hcl.
Qed.

Lemma step_steps_left (h : simplehub) (t : string) (data : value) (fl fl' : flight) :
  flight_inv h t data fl → step fl fl' → steps_left fl = S (steps_left fl').
Proof.
  intros [_ _ Hw Hret Hb Hwt _ _ _ _] Hstep. unfold steps_left.
  destruct Hstep as [fl Htodo Hr | fl Htodo Hr | i fl fl' Hbeg
                    | i fl fl' Hfin | fl fl' Hcl].
  - unfold visit. destruct (todo fl) as [|s rest] eqn:Hl; [done|].
    unfold matching.
    destruct (matchTopic s (fl_topic fl)) eqn:Hm; simpl.
    + rewrite filter_cons_True by done. rewrite length_app. simpl. lia.
    + rewrite filter_cons_False by (rewrite Hm; done). lia.
  - simpl. rewrite Hr. lia.
  - unfold begin in Hbeg.
    destruct (queued fl !! i) as [s|] eqn:Hq; [|done].
    destruct (loopvar fl) as [cur|]; [|done]. injection Hbeg as <-. simpl.
    pose proof (lookup_lt_Some _ _ _ Hq).
    rewrite length_delete by eauto. rewrite length_app. simpl. lia.
  - unfold finish in Hfin.
    destruct (running fl !! i) as [s|] eqn:Hq; [|done].
    destruct (wait fl) as [|n]; [done|]. injection Hfin as <-. simpl.
    pose proof (lookup_lt_Some _ _ _ Hq).
    rewrite length_delete by eauto. lia.
  - unfold close_done in Hcl.
    destruct (waiter fl) eqn:Hwa; [|done].
    destruct (Nat.eqb_spec (wait fl) 0); [|done]. injection Hcl as <-. simpl.
    rewrite (Hwt eq_refl). simpl. lia.
Qed.

Lemma nsteps_steps_left (h : simplehub) (t : string) (data : value)
    (k : nat) (fl fl' : flight) :
  flight_inv h t data fl → nsteps step k fl fl' →
  steps_left fl = (k + steps_left fl')%nat.
Proof.
  intros Hinv Hn. induction Hn as [fl|k fl fl1 fl' Hstep Hn IH]; [done|].
  rewrite (step_steps_left h t data fl fl1 Hinv Hstep).
  rewrite IH by (by eapply inv_step). lia.
Qed.

(** X8. Whatever the schedule, a publish that has taken [k] steps has
    exactly the steps ahead of it that remain of one for each
    subscriber, two for each matching one, the return and [close(done)]:
    no run of a publish to [n] subscribers of which [m] match is longer
    than [n + 2 m + 2] steps, and the handle has resolved exactly when
    that many have been taken. *)
Theorem publish_takes_all_its_steps
    (h : simplehub) (t : string) (data : value) (k : nat) (fl : flight) :
  nsteps step k (start h t data) fl →
  (k + steps_left fl
   = length (subscribers h) + 2 * length (matching t (subscribers h)) + 2)%nat ∧
  (Complete fl = true ↔
   k = (length (subscribers h) + 2 * length (matching t (subscribers h)) + 2)%nat).
Proof.
  intros Hn.
  pose proof (nsteps_steps_left h t data k _ _ (inv_start h t data) Hn) as Hk.
  unfold steps_left at 1 in Hk. simpl in Hk.
  assert (Hsum : (k + steps_left fl
                  = length (subscribers h)
                    + 2 * length (matching t (subscribers h)) + 2)%nat) by lia.
  split; [exact Hsum|].
  assert (Hr : reachable h t data fl) by (eapply rtc_nsteps_2; exact Hn).
  destruct (reachable_inv _ _ _ _ Hr) as [_ _ Hw Hret Hb _ _ Hc _ _].
  rewrite Complete_closes. split.
  - intros Hdone. destruct (Hc Hdone) as [Hone Hz].
    assert (Hreturned : returned fl = true).
    { destruct (returned fl) eqn:E; [done|]. destruct (Hb eq_refl). congruence. }
    assert (Hzero : steps_left fl = 0%nat).
    { unfold steps_left, matching.
      rewrite (Hret Hreturned), Hreturned, Hone, filter_nil.
      rewrite Hz in Hw. simpl. lia. }
    lia.
  - intros ->. assert (Hzero : steps_left fl = 0%nat) by lia.
    unfold steps_left in Hzero.
    destruct (Nat.eqb_spec (closes fl) 0); [lia | done].
Qed.

(** ** The handlers a publish calls *)

Lemma reachable_calls (h : simplehub) (t : string) (data : value) (fl : flight) :
  reachable h t data fl →
  length (calls fl) = (length (running fl) + length (ran fl))%nat ∧
  (∃ pre, subscribers h = pre ++ todo fl) ∧
  (∀ cur, loopvar fl = Some cur → cur ∈ subscribers h) ∧
  Forall (λ c, c.1.2 = t ∧ c.2 = data ∧ ∃ s, s ∈ subscribers h ∧ c.1.1 = handler s)
    (calls fl).
Proof.
  unfold reachable. revert fl. apply rtc_ind_r.
  - simpl. split; [done|]. split; [by exists []|]. split; [done | constructor].
  - intros fl fl' Hr Hstep (Hlen & [pre Hpre] & Hcur & Hall).
    destruct (reachable_inv h t data fl Hr) as [Ht Hd _ _ _ _ _ _ _ _].
    destruct Hstep as [fl Htodo Hret | fl Htodo Hret | i fl fl' Hbeg
                      | i fl fl' Hfin | fl fl' Hcl].
    + unfold visit. destruct (todo fl) as [|s rest] eqn:Hl; [done|].
      assert (Hs : s ∈ subscribers h).
      { rewrite Hpre, elem_of_app. right. apply list_elem_of_here. }
      assert (Hpre' : ∃ pre', subscribers h = pre' ++ rest).
      { exists (pre ++ [s]). by rewrite <- app_assoc. }
      destruct (matchTopic s (fl_topic fl)); simpl;
        (split; [done|]); (split; [done|]); (split; [|done]);
        by intros cur [= <-].
    + simpl. repeat split; try done. by exists pre.
    + unfold begin in Hbeg.
      destruct (queued fl !! i) as [s|] eqn:Hq; [|done].
      destruct (loopvar fl) as [cur|] eqn:Hlv; [|done]. injection Hbeg as <-.
      simpl. rewrite !length_app. simpl.
      split; [lia|]. split; [by exists pre|]. split; [done|].
      apply Forall_app. split; [done|]. constructor; [|constructor].
      simpl. split; [done|]. split; [done|]. exists cur. split; [by apply Hcur | done].
    + unfold finish in Hfin.
      destruct (running fl !! i) as [s|] eqn:Hq; [|done].
      destruct (wait fl) as [|n]; [done|]. injection Hfin as <-. simpl.
      pose proof (lookup_lt_Some _ _ _ Hq).
      rewrite length_delete by eauto. rewrite length_app. simpl.
      split; [lia|]. split; [by exists pre|]. done.
    + unfold close_done in Hcl.
      destruct (waiter fl && Nat.eqb (wait fl) 0); [|done]. injection Hcl as <-.
      simpl. split; [done|]. split; [by exists pre|]. done.
Qed.

(** X9. In every state a publish can reach, the handlers called so far
    are as many as the closures that have started, one call each; every
    call was made with the topic and the data of the publish, and on the
    handler of a subscriber of the hub: a publish calls no handler twice
    for one closure, none with another payload, and none that is not
    registered. *)
Theorem handlers_called_by_publish
    (h : simplehub) (t : string) (data : value) (fl : flight) :
  reachable h t data fl →
  length (calls fl) = (length (running fl) + length (ran fl))%nat ∧
  ∀ hd t' data', (hd, t', data') ∈ calls fl →
    t' = t ∧ data' = data ∧ ∃ s, s ∈ subscribers h ∧ hd = handler s.
Proof.
  intros Hr. destruct (reachable_calls h t data fl Hr) as (Hlen & _ & _ & Hall).
  split; [exact Hlen|].
  intros hd t' data' Hin. rewrite Forall_forall in Hall.
  apply (Hall _ Hin).
Qed.

End simplehub_more.

(** * Further properties of the structured hub *)

Section structuredHub_more.
Context `{Regexp} `{Json}.

(** ** The merge loop *)

Lemma merge_all_present (kvs : list (string * value)) (σ : heap) (r : option loc) :
  Forall (λ kv, is_Some (map_read σ r !! kv.1)) kvs → merge kvs σ r = Ok σ.
Proof.
  induction kvs as [|[k v] rest IH]; [done|].
  intros [[v0 Hk] Hrest]%Forall_cons. simpl in *. rewrite Hk. by apply IH.
Qed.

Lemma merge_some_absent (kvs : list (string * value)) (σ : heap) (l : loc) :
  ¬ Forall (λ kv, is_Some (map_read σ (Some l) !! kv.1)) kvs →
  merge kvs σ (Some l) = Ok (<[l := map_read σ (Some l) ∪ list_to_map kvs]> σ).
Proof.
  revert σ. induction kvs as [|[k v] rest IH]; intros σ Hnot.
  - destruct Hnot. constructor.
  - cbn [merge]. rewrite list_to_map_cons.
    destruct (map_read σ (Some l) !! k) as [v0|] eqn:Hk.
    + rewrite IH.
      * do 2 f_equal. apply map_eq. intros k'.
        rewrite !lookup_union. destruct (decide (k = k')) as [<-|Hne].
        -- rewrite Hk, lookup_insert_eq. by destruct (list_to_map rest !! k).
        -- by rewrite lookup_insert_ne.
      * intros Hall. apply Hnot. constructor; [|done].
        exists v0. exact Hk.
    + cbn [map_assign].
      set (M := map_read σ (Some l)) in *.
      set (σ1 := <[l := <[k := v]> M]> σ).
      assert (HM1 : map_read σ1 (Some l) = <[k := v]> M).
      { unfold σ1, map_read. by rewrite lookup_insert_eq. }
      destruct (decide (Forall (λ kv, is_Some (map_read σ1 (Some l) !! kv.1)) rest))
        as [Hall|Hnall].
      * rewrite (merge_all_present rest σ1 (Some l) Hall). unfold σ1.
        do 2 f_equal. apply map_eq. intros k'.
        rewrite lookup_union. destruct (decide (k = k')) as [<-|Hne].
        -- by rewrite Hk, !lookup_insert_eq.
        -- rewrite !lookup_insert_ne by done.
           destruct (M !! k') as [x|] eqn:HMk; simpl.
           ++ by destruct (list_to_map rest !! k').
           ++ destruct (list_to_map rest !! k') as [x|] eqn:Hr; [|done].
              apply elem_of_list_to_map_2 in Hr.
              rewrite Forall_forall in Hall. specialize (Hall _ Hr).
              cbn [fst] in Hall.
              rewrite HM1, lookup_insert_ne, HMk in Hall by done.
              by destruct Hall.
      * rewrite (IH σ1 Hnall). unfold σ1 at 2. rewrite insert_insert_eq.
        rewrite HM1. do 2 f_equal.
        rewrite <- insert_union_l. by rewrite insert_union_r.
Qed.

(** X10. The range over the annotations may yield them in any order:
    whichever order it is, the merge loop ends with the same heap, or
    with the same panic on a nil map, as in the order of
    [map_to_list], the one [structured_Publish] is written with. *)
Theorem merge_in_any_order
    (kvs : list (string * value)) (ann : entries) (σ : heap) (r : option loc) :
  kvs ≡ₚ map_to_list ann →
  merge kvs σ r = merge (map_to_list ann) σ r.
Proof.
  intros Hperm. destruct r as [l|].
  - destruct (decide (Forall (λ kv, is_Some (map_read σ (Some l) !! kv.1)) kvs))
      as [Hall|Hnall].
    + rewrite (merge_all_present kvs σ (Some l) Hall).
      rewrite Hperm in Hall. by rewrite (merge_all_present _ σ (Some l) Hall).
    + rewrite (merge_some_absent kvs σ l Hnall).
      rewrite Hperm in Hnall. rewrite (merge_some_absent _ σ l Hnall).
      do 3 f_equal. symmetry.
      apply list_to_map_proper; [apply NoDup_fst_map_to_list | by symmetry].
  - rewrite !merge_nil_map.
    destruct kvs as [|kv kvs], (map_to_list ann) as [|kv' l'] eqn:Hl; try done.
    + by apply Permutation_nil_cons in Hperm.
    + symmetry in Hperm. by apply Permutation_nil_cons in Hperm.
Qed.

(** ** What Publish writes *)

Lemma publish_all_present
    (σ : heap) (h : structuredHub) (t : string) (r : option loc) :
  (∀ k, is_Some (map_read σ (annotations h) !! k) → is_Some (map_read σ r !! k)) →
  ∃ fl, structured_Publish σ h t (VMap "" r) = Ok (σ, fl) ∧
    Publish (hub h) t (VMap "" r) = Ok fl.
Proof.
  intros Hall. unfold structured_Publish. rewrite toStringMap_map.
  rewrite merge_all_present.
  - eexists. split; reflexivity.
  - apply Forall_forall. intros [k v] Hkv. simpl.
    apply elem_of_map_to_list in Hkv. apply Hall. by rewrite Hkv.
Qed.

(** X11. When the published map already has every key of the
    annotations (so always when there are no annotations), Publish
    assigns to no map at all: the heap after it is the heap before, and
    the payload delegated is the caller's map, also when that is the nil
    map. *)
Theorem publish_writes_nothing_when_nothing_is_missing
    (σ : heap) (h : structuredHub) (t : string) (r : option loc) :
  (∀ k, is_Some (map_read σ (annotations h) !! k) → is_Some (map_read σ r !! k)) →
  ∃ fl, structured_Publish σ h t (VMap "" r) = Ok (σ, fl) ∧
    Publish (hub h) t (VMap "" r) = Ok fl ∧ fl_data fl = VMap "" r.
Proof.
  intros Hall. destruct (publish_all_present σ h t r Hall) as (fl & Hp & Hd).
  exists fl. split; [exact Hp|]. split; [exact Hd|].
  destruct (Publish_spec (hub h) t (VMap "" r)) as (fl0 & Hp0 & _ & Hdata & _).
  rewrite Hd in Hp0. by injection Hp0 as ->.
Qed.

(** X12. Publishing the same map object a second time writes nothing:
    after a Publish of a map, which put the missing defaults in, another
    Publish of that map on the same hub, to any topic, leaves the heap
    as the first one left it. *)
Theorem publish_again_writes_nothing
    (σ σ' : heap) (h : structuredHub) (t t' : string) (l : loc) (fl : flight) :
  structured_Publish σ h t (VMap "" (Some l)) = Ok (σ', fl) →
  ∃ fl', structured_Publish σ' h t' (VMap "" (Some l)) = Ok (σ', fl').
Proof.
  intros Hp.
  destruct (publish_canonical σ σ h t _ _ (toStringMap_map σ (Some l)))
    as (σ2 & fl2 & Hp2 & _ & Hr & Hf).
  rewrite Hp in Hp2. injection Hp2 as <- <-.
  destruct (publish_all_present σ' h t' (Some l))
    as (fl' & Hp' & _); [|by exists fl'].
  intros k Hk. destruct (annotations h) as [a|] eqn:Ha.
  - destruct (decide (a = l)) as [->|Hne]; [done|].
    unfold map_read in Hk. rewrite (Hf a Hne) in Hk.
    rewrite Hr. rewrite lookup_union.
    unfold map_read at 2. destruct Hk as [v ->].
    by destruct (map_read σ (Some l) !! k).
  - simpl in Hk. rewrite lookup_empty in Hk. by destruct Hk.
Qed.

(** ** What Publish delegates *)

Lemma structured_Publish_Ok_inv
    (σ σ' : heap) (h : structuredHub) (t : string) (data : value) (fl : flight) :
  structured_Publish σ h t data = Ok (σ', fl) →
  ∃ σ1 r, toStringMap σ data = Ok (σ1, r) ∧
    merge (map_to_list (map_read σ1 (annotations h))) σ1 r = Ok σ' ∧
    Publish (hub h) t (VMap "" r) = Ok fl.
Proof.
  unfold structured_Publish. intros Hp.
  destruct (toStringMap σ data) as [[σ1 r]| |]; try done.
  destruct (merge _ σ1 r) as [σ2| |] eqn:Hm; try done.
  destruct (Publish (hub h) t (VMap "" r)) as [fl0| |] eqn:Hpub; try done.
  injection Hp as <- <-. by exists σ1, r.
Qed.

(** X13. A value of a defined type whose underlying type is
    [map[string]interface{}] cannot be published: it is assignable to
    the map type but the type assertion fails, and Publish returns the
    error of that branch, with nothing merged and nothing delegated. *)
Theorem publish_defined_map_type_fails
    (σ : heap) (h : structuredHub) (t : string) (name : string) (r : option loc) :
  name ≠ "" →
  structured_Publish σ h t (VMap name r)
    = Err (Trace (Errorf "%T assignable to map[string]interface{} but isn't one?")).
Proof.
  intros Hn. unfold structured_Publish. by rewrite toStringMap_named_map.
Qed.

(** X14. Whatever data a structured Publish succeeds on, what it hands
    to the simple hub is a [map[string]interface{}], published to the
    same topic, and the subscribers notified are those whose pattern
    accepts the topic: the data has no part in who is notified. *)
Theorem publish_delegates_a_map
    (σ σ' : heap) (h : structuredHub) (t : string) (data : value) (fl : flight) :
  structured_Publish σ h t data = Ok (σ', fl) →
  (∃ r, fl_data fl = VMap "" r) ∧ fl_topic fl = t ∧
  notified fl = matching t (subscribers (hub h)).
Proof.
  intros Hp.
  destruct (structured_Publish_Ok_inv _ _ _ _ _ _ Hp) as (σ1 & r & _ & _ & Hpub).
  destruct (Publish_spec (hub h) t (VMap "" r))
    as (fl0 & Hp0 & Ht & Hd & _ & _ & Hq & Hrun & Hran & _).
  rewrite Hpub in Hp0. injection Hp0 as <-.
  split; [by exists r|]. split; [exact Ht|].
  unfold notified. by rewrite Hq, Hrun, Hran.
Qed.

(** X15. A handler [func(string, map[string]interface{}, error)] that
    is not the nil function (its third parameter may be of any type an
    [error] is assignable to) receives what Publish delegated as it is:
    the closure calls it once, with the topic, the very map that crossed
    the simple hub (the caller's own map object when a map was
    published) and a nil error, and touches no map in doing so. *)
Theorem map_handler_receives_the_payload
    (σ σ' : heap) (h : structuredHub) (t : string) (data : value) (fl : flight)
    (rt a3 : reflect.Type_) (n : nat) :
  structured_Publish σ h t data = Ok (σ', fl) →
  reflect.is_mapType rt = true →
  reflect.AssignableTo reflect.errorType a3 = true →
  let f := VFunc [reflect.TString; rt; a3] [] (Some n) in
  deserialize rt f σ' (fl_topic fl) (fl_data fl)
    = Ok (σ', [CallStructured f t (fl_data fl) None]) ∧
  (∀ l, data = VMap "" (Some l) → fl_data fl = data).
Proof.
  intros Hp Hrt Ha3 f.
  destruct (structured_Publish_Ok_inv _ _ _ _ _ _ Hp) as (σ1 & r & Hc & _ & Hpub).
  destruct (Publish_spec (hub h) t (VMap "" r))
    as (fl0 & Hp0 & Ht & Hd & _).
  rewrite Hpub in Hp0. injection Hp0 as <-. split.
  - unfold f. rewrite (deserialize_callable _ _ _ _ _ _ Ha3), Ht, Hd.
    unfold toHanderType. by rewrite Hrt.
  - intros l ->. rewrite toStringMap_map in Hc. injection Hc as _ <-. exact Hd.
Qed.

(** X18. The closure of a subscriber never finds data that is not a
    map when it is run on what a structured Publish delegated.  For a
    handler that [reflect.Value.Call] accepts with the closure's
    arguments (not the nil function, the first parameter a [string], the
    third of a type an [error] is assignable to), whenever the closure
    runs, in whatever heap, and whatever the type of the handler's data
    parameter, it calls the handler once with what [toHanderType] made
    of the map, and the error it passes is nil or comes from the
    conversion, never the "bad publish data" error of the closure's
    first branch. *)
Theorem bad_publish_data_is_unreachable
    (σ σ' : heap) (h : structuredHub) (t : string) (data : value) (fl : flight)
    (rt a3 : reflect.Type_) (n : nat) (σ2 : heap) :
  structured_Publish σ h t data = Ok (σ', fl) →
  reflect.AssignableTo reflect.errorType a3 = true →
  let f := VFunc [reflect.TString; rt; a3] [] (Some n) in
  ∃ r σ3 v err, fl_data fl = VMap "" r ∧
    deserialize rt f σ2 (fl_topic fl) (fl_data fl)
      = Ok (σ3, [CallStructured f t v err]) ∧
    (σ3, v, err) = toHanderType σ2 rt r ∧
    err ≠ Some (Errorf "bad publish data: %v").
Proof.
  intros Hp Ha3 f.
  destruct (structured_Publish_Ok_inv _ _ _ _ _ _ Hp) as (σ1 & r & _ & _ & Hpub).
  destruct (Publish_spec (hub h) t (VMap "" r))
    as (fl0 & Hp0 & Ht & Hd & _).
  rewrite Hpub in Hp0. injection Hp0 as <-.
  unfold f. rewrite (deserialize_callable _ _ _ _ _ _ Ha3), Ht, Hd.
  destruct (toHanderType σ2 rt r) as [[σ3 v] err] eqn:Hth.
  exists r, σ3, v, err. split; [done|]. split; [done|]. split; [done|].
  unfold toHanderType in Hth.
  destruct (reflect.is_mapType rt); [by injection Hth as _ _ <-|].
  destruct (Marshal σ2 (VMap "" r)) as [e|bs]; [by injection Hth as _ _ <-|].
  destruct (Unmarshal σ2 bs rt (zero rt)) as [[σ4 v4] [e|]];
    by injection Hth as _ _ <-.
Qed.

(** ** Subscribe on the structured hub *)

(** X16. [structuredHub.Subscribe] either adds exactly one subscriber or
    changes nothing.  When it succeeds the handler has passed
    [checkHandler], the registry is the old one with one subscriber
    added at its end, under the id the counter was at, which is also the
    id of the handle, the counter has moved on by one, and the
    annotations are the same.  When it fails or panics the hub is the
    one it was given. *)
Theorem structured_Subscribe_all_or_nothing
    (h h' : structuredHub) (t : string) (handler : value) (r : result handle) :
  structured_Subscribe h t handler = (r, h') →
  match r with
  | Ok hdl =>
      (∃ rt, checkHandler handler = Ok rt) ∧
      handle_id hdl = idx (hub h) ∧
      (∃ s, subscribers (hub h') = subscribers (hub h) ++ [s] ∧ id s = idx (hub h)) ∧
      idx (hub h') = wrap (idx (hub h) + 1) ∧
      annotations h' = annotations h
  | _ => h' = h
  end.
Proof.
  unfold structured_Subscribe.
  destruct (checkHandler handler) as [rt| |] eqn:Hc.
  - unfold Subscribe.
    destruct (newSubscriber t (Deserialize rt handler)) as [e|sub];
      intros [= <- <-].
    + by destruct h.
    + simpl. split; [by exists rt|]. split; [done|].
      split; [|done]. eexists. split; reflexivity.
  - by intros [= <- <-].
  - by intros [= <- <-].
Qed.

End structuredHub_more.

(** ** checkHandler *)

(** X17. [checkHandler] sorts every handler into one of three: for the
    nil handler it panics; for a function of three parameters, the
    first of kind string, the second of kind struct or the type
    [map[string]interface{}], the third an interface named error, and no
    result, it returns the type of the second parameter; and for
    anything else it returns an error that [errors.IsNotValid]
    recognises. *)
Theorem checkHandler_sorts_handlers (handler : value) :
  match checkHandler handler with
  | Panic _ => handler = VNil
  | Ok rt =>
      ∃ a1 a3 fid, handler = VFunc [a1; rt; a3] [] fid ∧
        reflect.kind a1 = reflect.String ∧
        (reflect.kind rt = reflect.Struct ∨ rt = reflect.mapType) ∧
        reflect.kind a3 = reflect.Interface ∧ reflect.Name a3 = "error"
  | Err e =>
      IsNotValid e = true ∧ handler ≠ VNil ∧
      ¬ ∃ a1 a2 a3 fid, handler = VFunc [a1; a2; a3] [] fid ∧
          reflect.kind a1 = reflect.String ∧
          (reflect.kind a2 = reflect.Struct ∨ a2 = reflect.mapType) ∧
          reflect.kind a3 = reflect.Interface ∧ reflect.Name a3 = "error"
  end.
Proof.
  destruct (checkHandler handler) as [rt|e|m] eqn:Hc.
  - by apply checkHandler_Ok_iff.
  - assert (Hnil : handler ≠ VNil) by (intros ->; discriminate Hc).
    split; [|split; [exact Hnil|]].
    + destruct (checkHandler_rejects handler Hnil) as [[rt Hok]|(e' & He & Hv)];
        congruence.
    + intros (a1 & a2 & a3 & fid & Hshape).
      assert (Hok : checkHandler handler = Ok a2).
      { apply checkHandler_Ok_iff. by exists a1, a3, fid. }
      congruence.
  - destruct handler; try done; exfalso;
      match goal with
      | Hc : checkHandler ?v = _ |- _ =>
          destruct (checkHandler_rejects v) as [[rt Hok]|(e' & He & _)];
            [discriminate | congruence | congruence]
      end.
Qed.

(** ** Instances of the further properties *)

Lemma subscribe_unsubscribe_round_trip_witness :
  Subscribe example_registry "c" plain_handler
    = (Ok {| handle_id := 2 |}, (Subscribe example_registry "c" plain_handler).2) ∧
  (idx example_registry ∉ id <$> subscribers example_registry) ∧
  ∃ s, Unsubscribe (Subscribe example_registry "c" plain_handler).2 {| handle_id := 2 |}
         = ({| subscribers := subscribers example_registry;
               idx := wrap (idx example_registry + 1) |}, [s]).
Proof.
  assert (Hs : Subscribe example_registry "c" plain_handler
               = (Ok {| handle_id := 2 |},
                  (Subscribe example_registry "c" plain_handler).2))
    by reflexivity.
  assert (Hfresh : idx example_registry ∉ (id <$> subscribers example_registry)).
  { apply (bool_decide_unpack _). vm_compute. exact I. }
  split; [exact Hs|]. split; [exact Hfresh|].
  destruct (subscribe_unsubscribe_round_trip _ _ _ _ _ Hs Hfresh)
    as (s & _ & _ & Hu).
  exists s. exact Hu.
Defined.

Lemma unsubscribe_commutes_witness :
  (0 : Z) ≠ 1 ∧
  (unsubscribe (unsubscribe example_registry 0).1 1).1
    = (unsubscribe (unsubscribe example_registry 1).1 0).1.
Proof.
  assert (Hne : (0 : Z) ≠ 1) by discriminate.
  split; [exact Hne|].
  apply (unsubscribe_commutes example_registry 0 1 Hne).
Defined.

Lemma unsubscribed_is_not_notified_witness :
  NoDup (id <$> subscribers example_registry) ∧
  ∃ fl', Publish (unsubscribe example_registry 0).1 "a" VNil = Ok fl' ∧
    ∀ s, s ∈ notified fl' → id s ≠ 0.
Proof.
  assert (Hnd : NoDup (id <$> subscribers example_registry)).
  { apply (bool_decide_unpack _). vm_compute. exact I. }
  split; [exact Hnd|].
  destruct (unsubscribed_is_not_notified example_registry 0 "a" VNil Hnd)
    as (fl & fl' & _ & Hp' & _ & Hall).
  exists fl'. split; [exact Hp' | exact Hall].
Defined.

Lemma subscribed_is_notified_iff_match_witness :
  Subscribe example_registry "c" plain_handler
    = (Ok {| handle_id := 2 |}, (Subscribe example_registry "c" plain_handler).2) ∧
  ∃ s fl fl1, id s = 2 ∧
    Publish example_registry "abc" VNil = Ok fl ∧
    Publish (Subscribe example_registry "c" plain_handler).2 "abc" VNil = Ok fl1 ∧
    notified fl1 = notified fl ++ (if MatchString (topic s) "abc" then [s] else []).
Proof.
  assert (Hs : Subscribe example_registry "c" plain_handler
               = (Ok {| handle_id := 2 |},
                  (Subscribe example_registry "c" plain_handler).2))
    by reflexivity.
  split; [exact Hs|].
  destruct (subscribed_is_notified_iff_match _ _ _ _ _ "abc" VNil Hs)
    as (s & fl & fl1 & _ & Hid & Hp & Hp1 & Hn).
  exists s, fl, fl1. split; [exact Hid|]. split; [exact Hp|].
  split; [exact Hp1 | exact Hn].
Defined.

Lemma registry_in_id_order_witness :
  Z.of_nat (length (assigned example_ops)) ≤ int_max ∧
  StronglySorted Z.lt (id <$> subscribers (run example_ops NewSimpleHub).1) ∧
  idx (run example_ops NewSimpleHub).1 = 3.
Proof.
  assert (Hlen : Z.of_nat (length (assigned example_ops)) ≤ int_max).
  { vm_compute. discriminate. }
  split; [exact Hlen|].
  destruct (registry_in_id_order example_ops Hlen) as (Hs & Hidx & _).
  split; [exact Hs|]. rewrite Hidx. reflexivity.
Defined.

Lemma example_running_reachable :
  reachable (hub example_hub) "foo.bar" (VMap "" (Some 2%positive)) example_running.
Proof.
  unfold reachable.
  eapply rtc_l; [apply step_visit; [discriminate | reflexivity]|].
  eapply rtc_l; [apply step_spawn; reflexivity|].
  eapply rtc_l; [apply (step_begin 0); reflexivity|].
  apply rtc_refl.
Qed.

Lemma example_final_steps :
  nsteps step 5 (start (hub example_hub) "foo.bar" (VMap "" (Some 2%positive)))
    example_final.
Proof.
  eapply nsteps_l; [apply step_visit; [discriminate | reflexivity]|].
  eapply nsteps_l; [apply step_spawn; reflexivity|].
  eapply nsteps_l; [apply (step_begin 0); reflexivity|].
  eapply nsteps_l; [apply (step_finish 0); reflexivity|].
  eapply nsteps_l; [apply step_close; reflexivity|].
  apply nsteps_O.
Qed.

Lemma closures_can_proceed_witness :
  reachable (hub example_hub) "foo.bar" (VMap "" (Some 2%positive)) example_running ∧
  (∃ s, running example_running !! 0%nat = Some s) ∧
  ∃ fl', finish 0 example_running = Some fl' ∧
    wait example_running = S (wait fl').
Proof.
  split; [exact example_running_reachable|].
  split; [eexists; reflexivity|].
  eapply (closures_can_proceed _ _ _ _ 0 _ example_running_reachable).
  reflexivity.
Defined.

Lemma stuck_iff_resolved_witness :
  reachable (hub example_hub) "foo.bar" (VMap "" (Some 2%positive)) example_final ∧
  Complete example_final = true ∧
  ∀ fl', ¬ step example_final fl'.
Proof.
  assert (Hr : reachable (hub example_hub) "foo.bar" (VMap "" (Some 2%positive))
                 example_final).
  { eapply rtc_nsteps_2. exact example_final_steps. }
  split; [exact Hr|]. split; [reflexivity|].
  apply (stuck_iff_resolved _ _ _ _ Hr). reflexivity.
Defined.

Lemma publish_takes_all_its_steps_witness :
  nsteps step 5 (start (hub example_hub) "foo.bar" (VMap "" (Some 2%positive)))
    example_final ∧
  (5 + steps_left example_final
   = length (subscribers (hub example_hub))
     + 2 * length (matching "foo.bar" (subscribers (hub example_hub))) + 2)%nat.
Proof.
  split; [exact example_final_steps|].
  destruct (publish_takes_all_its_steps _ _ _ _ _ example_final_steps)
    as [Hsum _].
  exact Hsum.
Defined.

Lemma handlers_called_by_publish_witness :
  reachable (hub example_hub) "foo.bar" (VMap "" (Some 2%positive)) example_running ∧
  length (calls example_running)
    = (length (running example_running) + length (ran example_running))%nat.
Proof.
  split; [exact example_running_reachable|].
  destruct (handlers_called_by_publish _ _ _ _ example_running_reachable)
    as [Hlen _].
  exact Hlen.
Defined.

Lemma merge_in_any_order_witness :
  reverse (map_to_list (map_read example_heap (Some 2%positive)))
    ≡ₚ map_to_list (map_read example_heap (Some 2%positive)) ∧
  merge (reverse (map_to_list (map_read example_heap (Some 2%positive))))
    example_heap (Some 1%positive)
  = merge (map_to_list (map_read example_heap (Some 2%positive)))
      example_heap (Some 1%positive).
Proof.
  assert (Hperm : reverse (map_to_list (map_read example_heap (Some 2%positive)))
                    ≡ₚ map_to_list (map_read example_heap (Some 2%positive)))
    by apply reverse_Permutation.
  split; [exact Hperm|].
  apply (merge_in_any_order _ _ example_heap (Some 1%positive) Hperm).
Defined.

Lemma publish_writes_nothing_when_nothing_is_missing_witness :
  (∀ k, is_Some (map_read example_heap (annotations example_hub) !! k) →
        is_Some (map_read example_heap (Some 1%positive) !! k)) ∧
  ∃ fl, structured_Publish example_heap example_hub "foo.bar" (VMap "" (Some 1%positive))
          = Ok (example_heap, fl).
Proof.
  assert (Hall : ∀ k, is_Some (map_read example_heap (annotations example_hub) !! k) →
                      is_Some (map_read example_heap (Some 1%positive) !! k)).
  { intros k Hk. exact Hk. }
  split; [exact Hall|].
  destruct (publish_writes_nothing_when_nothing_is_missing
              example_heap example_hub "foo.bar" (Some 1%positive) Hall)
    as (fl & Hp & _).
  exists fl. exact Hp.
Defined.

Lemma example_publish :
  ∃ σ' fl,
    structured_Publish example_heap example_hub "foo.bar" (VMap "" (Some 2%positive))
      = Ok (σ', fl).
Proof.
  destruct (publish_canonical example_heap example_heap example_hub "foo.bar"
              _ _ (toStringMap_map example_heap (Some 2%positive)))
    as (σ' & fl & Hp & _).
  by exists σ', fl.
Qed.

Lemma publish_again_writes_nothing_witness :
  ∃ σ' fl fl',
    structured_Publish example_heap example_hub "foo.bar" (VMap "" (Some 2%positive))
      = Ok (σ', fl) ∧
    structured_Publish σ' example_hub "foo.baz" (VMap "" (Some 2%positive))
      = Ok (σ', fl').
Proof.
  destruct example_publish as (σ' & fl & Hp).
  destruct (publish_again_writes_nothing _ _ _ _ "foo.baz" _ _ Hp) as (fl' & Hp').
  exists σ', fl, fl'. split; [exact Hp | exact Hp'].
Defined.

Lemma publish_defined_map_type_fails_witness :
  "Payload" ≠ "" ∧
  structured_Publish example_heap example_hub "foo.bar"
    (VMap "Payload" (Some 2%positive))
  = Err (Trace (Errorf "%T assignable to map[string]interface{} but isn't one?")).
Proof.
  assert (Hn : "Payload" ≠ "") by discriminate.
  split; [exact Hn|].
  apply (publish_defined_map_type_fails example_heap example_hub "foo.bar" _ _ Hn).
Defined.

Lemma publish_delegates_a_map_witness :
  ∃ σ' fl,
    structured_Publish example_heap example_hub "foo.bar" (VMap "" (Some 2%positive))
      = Ok (σ', fl) ∧
    fl_topic fl = "foo.bar" ∧
    notified fl = matching "foo.bar" (subscribers (hub example_hub)).
Proof.
  destruct example_publish as (σ' & fl & Hp).
  destruct (publish_delegates_a_map _ _ _ _ _ _ Hp) as (_ & Ht & Hn).
  exists σ', fl. split; [exact Hp|]. split; [exact Ht | exact Hn].
Defined.

Lemma map_handler_receives_the_payload_witness :
  reflect.is_mapType reflect.mapType = true ∧
  reflect.AssignableTo reflect.errorType reflect.errorType = true ∧
  ∃ σ' fl,
    structured_Publish example_heap example_hub "foo.bar" (VMap "" (Some 2%positive))
      = Ok (σ', fl) ∧
    deserialize reflect.mapType map_handler σ' (fl_topic fl) (fl_data fl)
      = Ok (σ', [CallStructured map_handler "foo.bar" (fl_data fl) None]).
Proof.
  split; [reflexivity|]. split; [reflexivity|].
  destruct example_publish as (σ' & fl & Hp).
  destruct (map_handler_receives_the_payload _ _ _ _ _ _ reflect.mapType
              reflect.errorType 2%nat Hp eq_refl eq_refl) as [Hi _].
  exists σ', fl. split; [exact Hp | exact Hi].
Defined.

Lemma bad_publish_data_is_unreachable_witness :
  reflect.AssignableTo reflect.errorType reflect.errorType = true ∧
  ∃ σ' fl,
    structured_Publish example_heap example_hub "foo.bar" (VMap "" (Some 2%positive))
      = Ok (σ', fl) ∧
    ∃ σ3 v err,
      deserialize Msg msg_handler σ' (fl_topic fl) (fl_data fl)
        = Ok (σ3, [CallStructured msg_handler "foo.bar" v err]) ∧
      err ≠ Some (Errorf "bad publish data: %v").
Proof.
  split; [reflexivity|].
  destruct example_publish as (σ' & fl & Hp).
  destruct (bad_publish_data_is_unreachable _ _ _ _ _ _ Msg reflect.errorType
              1%nat σ' Hp eq_refl)
    as (r & σ3 & v & err & _ & Hd & _ & Herr).
  exists σ', fl. split; [exact Hp|].
  exists σ3, v, err. split; [exact Hd | exact Herr].
Defined.

Lemma structured_Subscribe_all_or_nothing_witness :
  structured_Subscribe (NewStructuredHub (Some 1%positive)) "foo.*" map_handler
    = (Ok {| handle_id := 0 |}, example_hub) ∧
  idx (hub example_hub) = wrap (idx (hub (NewStructuredHub (Some 1%positive))) + 1) ∧
  annotations example_hub = Some 1%positive.
Proof.
  assert (Hs : structured_Subscribe (NewStructuredHub (Some 1%positive)) "foo.*"
                 map_handler = (Ok {| handle_id := 0 |}, example_hub))
    by reflexivity.
  split; [exact Hs|].
  destruct (structured_Subscribe_all_or_nothing _ _ _ _ _ Hs)
    as (_ & _ & _ & Hidx & Hann).
  split; [exact Hidx | exact Hann].
Defined.
